(** * omnizart: beat extraction for drum transcription
      (omnizart/feature/beat_for_drum.py)

    A shallow embedding of [MadmomBeatTracking.process], of
    [extract_mini_beat_from_beat_arr] and of the two functions that
    start from an audio path, the properties the specification states
    about them, and further properties of the code.

    Conventions of the model.
    - Timestamps, inter-beat intervals and tempi are exact rationals
      ([Q]): the arithmetic on them (differences, sums, means, the
      interpolation formula) is not rounded.  Arrays of timestamps
      are compared element by element with [==].  A float result that
      may be an infinity or nan ([npfloat]) keeps that possibility.
    - The computations that decide how many elements an array has go
      through Python floats in the source: [int(len * 0.2)],
      [np.round(n / 4)], [1 / d] and the length and the grid of
      [np.arange].  There every operation is rounded to the nearest
      number with a 53-bit significand, ties to even ([b64]); the
      exponent range is not bounded.
    - The madmom processors are external: [process] is stated over
      any implementation of them ([Madmom]).
    - NumPy, SciPy and concurrent.futures routines are embedded by
      what they compute ([np_sort], [np_mean], [np_arange],
      [interp1d], [as_completed]).  Time is counted in seconds.
    - [omnizart.io.load_audio] is defined in another module of the
      package: the functions that call it take it as an argument. *)

From Stdlib Require Import QArith Qround Qpower Lqa Lia ZArith Sorted Permutation.
From stdpp Require Import gmap strings list fin_maps.

Local Open Scope Q_scope.

(** ** Round-to-nearest-even on binary64 significands *)

Module Binary64.

(** [np.rint] / [np.round] with no decimals: nearest integer, ties to
    the even one. *)
Definition rint (q : Q) : Z :=
  let f := Qfloor q in
  match Qcompare (q - inject_Z f) (1 # 2) with
  | Lt => f
  | Gt => (f + 1)%Z
  | Eq => if Z.even f then f else (f + 1)%Z
  end.

Definition pow2 (e : Z) : Q := (2 # 1) ^ e.

(** Exponent of a positive rational: [pow2 e <= q < pow2 (e + 1)]. *)
Definition Qlog2 (q : Q) : Z :=
  let g := (Z.log2 (Qnum q) - Z.log2 (Zpos (Qden q)))%Z in
  if Qle_bool (pow2 g) q then g else (g - 1)%Z.

Definition prec : Z := 53.

Definition round_pos (q : Q) : Q :=
  let e := Qlog2 q in
  inject_Z (rint (q * pow2 (prec - 1 - e))) * pow2 (e - (prec - 1)).

(** The double nearest to the rational [q]. *)
Definition b64 (q : Q) : Q :=
  match Qcompare q 0 with
  | Eq => 0
  | Gt => round_pos q
  | Lt => - round_pos (- q)
  end.

End Binary64.
Import Binary64.



(** ** Python and NumPy values *)

(** Exceptions the program can end with. *)
Inductive exn := TimeoutError | ValueError | KeyError.

Inductive result (A : Type) := Ok (a : A) | Raise (e : exn).
Arguments Ok {A} a.
Arguments Raise {A} e.

#[global] Instance result_ret : MRet result := fun A a => Ok a.
#[global] Instance result_bind : MBind result :=
  fun A B f m => match m with Ok a => f a | Raise e => Raise e end.

(** A float64 as NumPy hands it around: a finite value, an infinity or
    nan.  Zero carries no sign. *)
Inductive npfloat := Num (q : Q) | Inf (negative : bool) | NaN.

Definition Qltb (a b : Q) : bool := negb (Qle_bool b a).
Definition Qeqb (a b : Q) : bool := Qeq_bool a b.

Module Np.

Definition add (a b : npfloat) : npfloat :=
  match a, b with
  | Num x, Num y => Num (x + y)
  | NaN, _ | _, NaN => NaN
  | Inf s, Inf t => if Bool.eqb s t then Inf s else NaN
  | Inf s, Num _ | Num _, Inf s => Inf s
  end.

Definition mul (a b : npfloat) : npfloat :=
  match a, b with
  | Num x, Num y => Num (x * y)
  | NaN, _ | _, NaN => NaN
  | Inf s, Inf t => Inf (xorb s t)
  | Inf s, Num y | Num y, Inf s =>
      if Qeqb y 0 then NaN else Inf (xorb s (Qltb y 0))
  end.

(** True division of floats: a zero divisor gives an infinity (or nan
    for 0/0) and a warning, never an exception. *)
Definition div (a b : npfloat) : npfloat :=
  match a, b with
  | Num x, Num y =>
      if Qeqb y 0 then (if Qeqb x 0 then NaN else Inf (Qltb x 0))
      else Num (x / y)
  | NaN, _ | _, NaN => NaN
  | Inf _, Inf _ => NaN
  | Inf s, Num y => Inf (xorb s (Qltb y 0))
  | Num _, Inf _ => Num 0
  end.

End Np.

(** [float(z)] *)
Definition py_float (z : Z) : Q := b64 (inject_Z z).

(** [int(x)] on a float: truncation towards zero. *)
Definition py_int (x : Q) : Z :=
  if Qle_bool 0 x then Qfloor x else Qceiling x.

(** [a[lo:hi]] for indices that are not negative. *)
Definition py_slice {A} (a : list A) (lo hi : Z) : list A :=
  take (Z.to_nat hi - Z.to_nat lo) (drop (Z.to_nat lo) a).

(** [a[1:] - a[:-1]] *)
Definition np_diff (a : list Q) : list Q :=
  zip_with Qminus (drop 1 a) (take (length a - 1) a).

Fixpoint insert_sorted (x : Q) (l : list Q) : list Q :=
  match l with
  | [] => [x]
  | y :: l' => if Qle_bool x y then x :: l else y :: insert_sorted x l'
  end.

(** [np.sort]: ascending. *)
Definition np_sort (a : list Q) : list Q := foldr insert_sorted [] a.

Definition np_sum (a : list npfloat) : npfloat := foldr Np.add (Num 0) a.

(** [np.mean]: the mean of no element is 0/0 = nan. *)
Definition np_mean (a : list npfloat) : npfloat :=
  Np.div (np_sum a) (Num (inject_Z (Z.of_nat (length a)))).

(** [np.round(x).astype("int")] *)
Definition np_round (x : Q) : Z := rint x.

(** [np.arange(start, stop, step)] with integers [start], [stop] and a
    float step.  The length is the ceiling of the rounded quotient
    [(stop - start) / step]; an infinite step leaves the single element
    [start].  The first two elements are [start] and [start + step],
    the others [start + i * delta] with [delta] the difference of the
    first two. *)
Definition arange_len (start stop : Z) (step : npfloat) : Z :=
  match step with
  | Num s => Qceiling (b64 (py_float (stop - start) / s))
  | Inf false => if (stop - start =? 0)%Z then 0 else 1
  | Inf true => 0
  | NaN => 0
  end.

Definition arange_item (start : Z) (step : Q) (i : Z) : Q :=
  let first := py_float start in
  let second := b64 (first + step) in
  let delta := b64 (second - first) in
  if (i =? 0)%Z then first
  else if (i =? 1)%Z then second
  else b64 (first + b64 (py_float i * delta)).

Definition np_arange (start stop : Z) (step : npfloat) : list Q :=
  let n := Z.to_nat (arange_len start stop step) in
  match step with
  | Num s => (fun i => arange_item start s (Z.of_nat i)) <$> seq 0 n
  | _ => (fun i => py_float (start + Z.of_nat i)) <$> seq 0 n
  end.

(** [np.searchsorted(x, v)] on an ascending [x]: how many elements are
    smaller than [v]. *)
Fixpoint searchsorted (x : list Q) (v : Q) : nat :=
  match x with
  | [] => O
  | x0 :: x' => if Qltb x0 v then S (searchsorted x' v) else O
  end.

Definition clip (i lo hi : nat) : nat := Nat.min (Nat.max i lo) hi.

(** ** scipy.interpolate.interp1d, linear, fill_value="extrapolate" *)

(** Evaluation: the segment is chosen by [searchsorted], clipped so
    that points outside the knots use the first or the last segment. *)
Definition interp1d_call (x y : list Q) (x_new : Q) : Q :=
  let hi := clip (searchsorted x x_new) 1 (length x - 1) in
  let lo := (hi - 1)%nat in
  let x_lo := nth lo x 0 in
  let x_hi := nth hi x 0 in
  let y_lo := nth lo y 0 in
  let y_hi := nth hi y 0 in
  let slope := (y_hi - y_lo) / (x_hi - x_lo) in
  slope * (x_new - x_lo) + y_lo.

(** Construction: both arrays have one length, and a line needs two
    points. *)
Definition interp1d (x y : list Q) : result (Q -> Q) :=
  if negb (length x =? length y)%nat then Raise ValueError
  else if (length x <? 2)%nat then Raise ValueError
  else Ok (interp1d_call x y).

(** ** concurrent.futures *)

(** A submitted task: its identity, the time (in seconds after the pool
    was created) at which the worker finishes it, and what it returns.
    When a task finishes is up to the scheduler. *)
Record future := {
  fut_id : positive;
  fut_done : nat;
  fut_result : list Q
}.

(** What the program does not control: when each task ends, and in
    which order a set of futures is iterated. *)
Record pool_env := {
  finish : positive -> nat;
  set_order : list future -> list future
}.

Definition submit (env : pool_env) (id : positive) (r : list Q) : future :=
  {| fut_id := id; fut_done := finish env id; fut_result := r |}.

(** Leaving the [with] block calls [shutdown(wait=True)]: the caller is
    blocked until every submitted task has ended. *)
Definition shutdown_wait (now : nat) (fs : list future) : nat :=
  foldr (fun f t => Nat.max (fut_done f) t) now fs.

Fixpoint insert_by_done (f : future) (l : list future) : list future :=
  match l with
  | [] => [f]
  | g :: l' =>
      if (fut_done f <=? fut_done g)%nat then f :: l else g :: insert_by_done f l'
  end.

Definition sort_by_done (l : list future) : list future :=
  foldr insert_by_done [] l.

(** [as_completed(fs, timeout)], called at time [now]: the futures that
    are already done come first, then the pending ones as they end; a
    pending one that has not ended [timeout] seconds after the call
    raises TimeoutError. *)
Definition as_completed (env : pool_env) (now : nat) (fs : list future)
    (timeout : nat) : result (list future) :=
  let end_time := (now + timeout)%nat in
  let finished := List.filter (fun f => (fut_done f <=? now)%nat) fs in
  let pending := List.filter (fun f => negb (fut_done f <=? now)%nat) fs in
  if forallb (fun f => (fut_done f <=? end_time)%nat) pending
  then Ok (set_order env finished ++ sort_by_done pending)
  else Raise TimeoutError.

(** [d[k]] on a dict *)
Definition getitem `{Countable K} {V} (d : gmap K V) (k : K) : result V :=
  match d !! k with
  | Some v => Ok v
  | None => Raise KeyError
  end.

(** ** madmom *)

(** The processors of [madmom.features], as the module calls them. *)
Class Madmom (audio : Type) := {
  down_activation : Type;
  beat_activation : Type;
  RNNDownBeatProcessor : Z -> audio -> down_activation;
  RNNBeatProcessor : Z -> audio -> beat_activation;
  (** beats_per_bar, min_bpm, max_bpm, fps, num_threads; the rows are
      (beat time, position in the bar) *)
  DBNDownBeatTrackingProcessor :
    list Z -> npfloat -> npfloat -> Z -> Z -> down_activation -> list (Q * Q);
  (** fps, num_threads *)
  DBNBeatTrackingProcessor : Z -> Z -> beat_activation -> list Q;
  BeatTrackingProcessor : Z -> Z -> beat_activation -> list Q
}.

(** ** MadmomBeatTracking *)

Record MadmomBeatTracking := {
  num_threads : Z;
  parallel_workers : Z
}.

(** The literals [0.2], [0.8] and [1.38] are the doubles nearest to
    them. *)
Definition lit_0_2 : Q := b64 (2 # 10).
Definition lit_0_8 : Q := b64 (8 # 10).
Definition lit_1_38 : Q := b64 (138 # 100).

(** [np.sort(b[1:] - b[:-1])[int(len(b) * 0.2):int(len(b) * 0.8)]] *)
Definition trimmed_intervals (pred_beats : list Q) : list Q :=
  let n := Z.of_nat (length pred_beats) in
  py_slice (np_sort (np_diff pred_beats))
    (py_int (b64 (py_float n * lit_0_2)))
    (py_int (b64 (py_float n * lit_0_8))).

Definition pred_beat_len (pred_beats : list Q) : npfloat :=
  np_mean (Num <$> trimmed_intervals pred_beats).

Definition pred_bpm (pred_beats : list Q) : npfloat :=
  Np.div (Num 60) (pred_beat_len pred_beats).

Section Process.

Context {audio : Type} `{!Madmom audio}.

Definition _get_dbn_down_beat (self : MadmomBeatTracking) (audio_data_in1 : audio)
    (min_bpm_in max_bpm_in : npfloat) : list Q :=
  let proccesor :=
    DBNDownBeatTrackingProcessor [3; 4; 5; 6; 7]%Z min_bpm_in max_bpm_in 100
      (num_threads self) in
  let action := RNNDownBeatProcessor (num_threads self) audio_data_in1 in
  fst <$> proccesor action.

Definition _get_dbn_beat (self : MadmomBeatTracking) (audio_data_in2 : audio) : list Q :=
  let proccesor := DBNBeatTrackingProcessor 100 (num_threads self) in
  let action := RNNBeatProcessor (num_threads self) audio_data_in2 in
  proccesor action.

Definition _get_beat (self : MadmomBeatTracking) (audio_data_in3 : audio) : list Q :=
  let proccesor := BeatTrackingProcessor 100 (num_threads self) in
  let action := RNNBeatProcessor (num_threads self) audio_data_in3 in
  proccesor action.

(** The first pass, run in the calling process. *)
Definition first_pass_sequential (self : MadmomBeatTracking) (audio_data : audio)
    : result (list Q * list Q * list Q) :=
  let pred_beats1 := _get_dbn_down_beat self audio_data (Num 50) (Num 230) in
  let pred_beats2 := _get_dbn_beat self audio_data in
  let pred_beats3 := _get_beat self audio_data in
  Ok (pred_beats1, pred_beats2, pred_beats3).

(** The loop over the finished jobs: each result is stored under the
    name its future was queued with. *)
Definition collect (queue : gmap positive string) (done : list future)
    : result (gmap string (list Q)) :=
  foldl
    (fun (acc : result (gmap string (list Q))) future =>
       results ← acc;
       func_name ← getitem queue (fut_id future);
       Ok (<[func_name := fut_result future]> results))
    (Ok ∅) done.

(** The first pass on a process pool.  The loop over [as_completed]
    comes after the [with] block, that is after the pool was shut
    down. *)
Definition first_pass_parallel (self : MadmomBeatTracking) (env : pool_env)
    (audio_data : audio) : result (list Q * list Q * list Q) :=
  if (parallel_workers self <? 0)%Z then Raise ValueError else
  let future_1 := submit env 1 (_get_dbn_down_beat self audio_data (Num 50) (Num 230)) in
  let future_2 := submit env 2 (_get_dbn_beat self audio_data) in
  let future_3 := submit env 3 (_get_beat self audio_data) in
  let queue : gmap positive string :=
    <[fut_id future_3 := "beat"]>
      (<[fut_id future_2 := "dbn_beat"]>
        (<[fut_id future_1 := "dbn_down_beat"]> ∅)) in
  let fs := [future_1; future_2; future_3] in
  let now := shutdown_wait 0 fs in
  done ← as_completed env now fs 600;
  results ← collect queue done;
  pred_beats1 ← getitem results "dbn_down_beat";
  pred_beats2 ← getitem results "dbn_beat";
  pred_beats3 ← getitem results "beat";
  Ok (pred_beats1, pred_beats2, pred_beats3).

Definition consensus (pred_beats1 pred_beats2 pred_beats3 : list Q) : npfloat :=
  np_mean [pred_bpm pred_beats1; pred_bpm pred_beats2; pred_bpm pred_beats3].

Definition process (self : MadmomBeatTracking) (env : pool_env) (audio_data : audio)
    : result (list Q) :=
  '(pred_beats1, pred_beats2, pred_beats3) ←
    (if (parallel_workers self =? 0)%Z
     then first_pass_sequential self audio_data
     else first_pass_parallel self env audio_data);
  let pred_bpm_avg := consensus pred_beats1 pred_beats2 pred_beats3 in
  Ok (_get_dbn_down_beat self audio_data
        (Np.div pred_bpm_avg (Num lit_1_38))
        (Np.mul pred_bpm_avg (Num lit_1_38))).

End Process.

(** The same tracker with [parallel_workers=0]. *)
Definition sequential (self : MadmomBeatTracking) : MadmomBeatTracking :=
  {| num_threads := num_threads self; parallel_workers := 0 |}.

(** Iterating a set yields each of its elements once, in some order. *)
Definition iterates_each_once (env : pool_env) : Prop :=
  forall fs, Permutation (set_order env fs) fs.

(** ** extract_mini_beat_from_beat_arr *)

(** [np.round(mini_beat_div_n / 4).astype("int")] *)
Definition divisions (mini_beat_div_n : Z) : Z :=
  np_round (b64 (inject_Z mini_beat_div_n / 4)).

(** [1 / d] for a NumPy integer [d]: a division of doubles; a zero
    divisor gives an infinity and a warning. *)
Definition step_for (d : Z) : Q := b64 (py_float 1 / py_float d).

Definition reciprocal (d : Z) : npfloat :=
  if (d =? 0)%Z then Inf false else Num (step_for d).

(** [np.arange(len(beat_arr)) + 1] *)
Definition beat_abs_idx (beat_arr : list Q) : list Q :=
  (fun i => inject_Z (Z.of_nat i + 1)) <$> seq 0 (length beat_arr).

(** [np.arange(0, beat_arr.shape[0] + 1, 1 / mini_beat_div_n)] *)
Definition mini_beat_abs_idx (n_beats : nat) (d : Z) : list Q :=
  np_arange 0 (Z.of_nat n_beats + 1) (reciprocal d).

Definition extract_mini_beat_from_beat_arr (beat_arr : list Q) (audio_len_sec : Q)
    (mini_beat_div_n : Z) : result (list Q) :=
  let mini_beat_div_n := divisions mini_beat_div_n in
  let beat_time_ary_in := beat_arr in
  beat_map_func ← interp1d (beat_abs_idx beat_arr) beat_time_ary_in;
  let mini_beat_pos_t := beat_map_func <$> mini_beat_abs_idx (length beat_arr) mini_beat_div_n in
  let mini_beat_pos_t := List.filter (fun x => Qle_bool 0 x) mini_beat_pos_t in
  let mini_beat_pos_t := List.filter (fun x => Qle_bool x audio_len_sec) mini_beat_pos_t in
  Ok mini_beat_pos_t.

(** ** Data model of the specification *)

(** A Beat Time Array: strictly increasing timestamps. *)
Fixpoint strictly_increasing (a : list Q) : Prop :=
  match a with
  | x :: (y :: _) as a' => x < y /\ strictly_increasing a'
  | _ => True
  end.

Fixpoint non_decreasing (a : list Q) : Prop :=
  match a with
  | x :: (y :: _) as a' => x <= y /\ non_decreasing a'
  | _ => True
  end.

(** Arrays are compared element by element. *)
Definition same_array (a b : list Q) : Prop := Forall2 Qeq a b.

Definition same_float (a b : npfloat) : Prop :=
  match a, b with
  | Num x, Num y => x == y
  | Inf s, Inf t => s = t
  | NaN, NaN => True
  | _, _ => False
  end.

Definition Qsum (a : list Q) : Q := foldr Qplus 0 a.

(** The tempo estimate as the specification words it, with the 20%
    taken of the number of intervals: in the first reading the middle
    60% are the positions from 20% to 80% of the sorted intervals, in
    the second a fifth of the intervals is dropped at each end. *)
Definition middle_60_percent (sorted : list Q) : list Q :=
  let m := Z.of_nat (length sorted) in
  py_slice sorted (py_int (b64 (py_float m * lit_0_2)))
                  (py_int (b64 (py_float m * lit_0_8))).

Definition trim_both_tails (sorted : list Q) : list Q :=
  let m := Z.of_nat (length sorted) in
  let k := py_int (b64 (py_float m * lit_0_2)) in
  py_slice sorted k (m - k).

Definition tempo_estimate_spec (trim : list Q -> list Q) (beats : list Q) : npfloat :=
  Np.div (Num 60) (np_mean (Num <$> trim (np_sort (np_diff beats)))).

(** ** extract_mini_beat_from_beat_arr on a store of array objects *)

(** NumPy arrays are objects: the caller passes a reference, and every
    [np.array], [np.arange] or arithmetic result is a new object.  The
    store maps references to contents; the function threads it. *)
Module Store.

Abbreviation loc := positive.
Abbreviation store := (gmap positive (list Q)).

Definition alloc (a : list Q) (h : store) : loc * store :=
  let l := fresh (dom h) in (l, <[l := a]> h).

Definition read (l : loc) (h : store) : list Q := default [] (h !! l).

Definition extract_mini_beat_from_beat_arr (beat_arr : loc) (audio_len_sec : Q)
    (mini_beat_div_n : Z) (h : store) : result (loc * store) :=
  let mini_beat_div_n := divisions mini_beat_div_n in
  (* np.array(beat_arr): a copy *)
  let '(beat_time_ary_in, h) := alloc (read beat_arr h) h in
  let '(beat_abs_idx, h) := alloc (beat_abs_idx (read beat_arr h)) h in
  beat_map_func ← interp1d (read beat_abs_idx h) (read beat_time_ary_in h);
  let '(mini_beat_abs_idx, h) :=
    alloc (mini_beat_abs_idx (length (read beat_arr h)) mini_beat_div_n) h in
  let mini_beat_pos_t := beat_map_func <$> read mini_beat_abs_idx h in
  let '(mini_beat_pos_t, h) :=
    alloc (List.filter (fun x => Qle_bool 0 x) mini_beat_pos_t) h in
  let '(mini_beat_pos_t, h) :=
    alloc (List.filter (fun x => Qle_bool x audio_len_sec) (read mini_beat_pos_t h)) h in
  Ok (mini_beat_pos_t, h).

End Store.

(** ** Stand-ins for examples *)

(** A stand-in for madmom that hears a click at 120 beats per minute
    whatever the audio is. *)
Definition metronome : Madmom unit := {|
  down_activation := unit;
  beat_activation := unit;
  RNNDownBeatProcessor := fun _ _ => tt;
  RNNBeatProcessor := fun _ _ => tt;
  DBNDownBeatTrackingProcessor := fun _ _ _ _ _ _ =>
    [(1 # 2, 1); (1, 2); (3 # 2, 3); (2, 4); (5 # 2, 1)];
  DBNBeatTrackingProcessor := fun _ _ _ => [1 # 2; 1; 3 # 2; 2; 5 # 2];
  BeatTrackingProcessor := fun _ _ _ => [1 # 2; 1; 3 # 2; 2]
|}.

(** A run in which the first job needs 700 seconds and the set of
    futures is iterated backwards. *)
Definition slow_run : pool_env := {|
  finish := fun id => match id with 1%positive => 700%nat | _ => 5%nat end;
  set_order := @rev future
|}.

Definition default_tracker : MadmomBeatTracking :=
  {| num_threads := 3; parallel_workers := 3 |}.

(** ** The functions that start from an audio file *)

(** How a call ends: with a value, with one of the exceptions above, or
    with the ZeroDivisionError of a division of integers by zero. *)
Inductive outcome (A : Type) :=
  | Returns (a : A)
  | Raises (e : exn)
  | RaisesZeroDivisionError.
Arguments Returns {A} a.
Arguments Raises {A} e.
Arguments RaisesZeroDivisionError {A}.

Section FromAudioPath.

Context {audio : Type} `{!Madmom audio}.

(** [omnizart.io.load_audio] belongs to another module: it is taken as
    given, with [len] of the samples it returns.  It gives the samples
    and a sampling rate. *)
Variable path : Type.
Variable load_audio : path -> Z -> audio * Z.
Variable len : audio -> nat.

(** The tuple is built from left to right: [process] runs before the
    length is divided by the sampling rate, a division of two
    integers into a float. *)
Definition extract_beat_with_madmom (env : pool_env) (audio_path : path)
    (sampling_rate parallel_workers num_threads : Z) : outcome (list Q * Q) :=
  let '(audio_data, _) := load_audio audio_path sampling_rate in
  let mbt := {| num_threads := num_threads; parallel_workers := parallel_workers |} in
  match process mbt env audio_data with
  | Raise e => Raises e
  | Ok beat_arr =>
      if (sampling_rate =? 0)%Z then RaisesZeroDivisionError
      else Returns (beat_arr,
                    b64 (inject_Z (Z.of_nat (len audio_data)) / inject_Z sampling_rate))
  end.

Definition extract_mini_beat_from_audio_path (env : pool_env) (audio_path : path)
    (sampling_rate mini_beat_div_n parallel_workers num_threads : Z)
    : outcome (list Q) :=
  match extract_beat_with_madmom env audio_path sampling_rate parallel_workers
          num_threads with
  | Returns (beat_arr, audio_len_sec) =>
      match extract_mini_beat_from_beat_arr beat_arr audio_len_sec mini_beat_div_n with
      | Ok mini_beat_pos_t => Returns mini_beat_pos_t
      | Raise e => Raises e
      end
  | Raises e => Raises e
  | RaisesZeroDivisionError => RaisesZeroDivisionError
  end.

End FromAudioPath.

Arguments extract_beat_with_madmom {audio _ path} load_audio len env audio_path
  sampling_rate parallel_workers num_threads.
Arguments extract_mini_beat_from_audio_path {audio _ path} load_audio len env audio_path
  sampling_rate mini_beat_div_n parallel_workers num_threads.

(** ** More stand-ins for examples *)

(** A stand-in for madmom whose second estimator finds a single beat. *)
Definition one_click : Madmom unit := {|
  down_activation := unit;
  beat_activation := unit;
  RNNDownBeatProcessor := fun _ _ => tt;
  RNNBeatProcessor := fun _ _ => tt;
  DBNDownBeatTrackingProcessor := fun _ _ _ _ _ _ =>
    [(1 # 2, 1); (1, 2); (3 # 2, 3); (2, 4); (5 # 2, 1)];
  DBNBeatTrackingProcessor := fun _ _ _ => [1 # 2];
  BeatTrackingProcessor := fun _ _ _ => [1 # 2; 1; 3 # 2; 2]
|}.

(** A loader that returns ten seconds of samples at the rate asked
    for. *)
Definition ten_seconds (p : unit) (sampling_rate : Z) : unit * Z := (tt, sampling_rate).
Definition ten_seconds_len (a : unit) : nat := Z.to_nat 441000.

(** * Theory *)

(** ** Theory of the rounding operator *)

Section OrderHelpers.

Lemma Qmult_le_nonneg_l x y z : 0 <= z -> x <= y -> z * x <= z * y.
Proof.
  intros Hz Hxy. rewrite (Qmult_comm z x), (Qmult_comm z y).
  apply Qmult_le_compat_r; assumption.
Qed.

Lemma inject_Z_nonneg z : (0 <= z)%Z -> 0 <= inject_Z z.
Proof. intros H. rewrite Zle_Qle in H. exact H. Qed.

Lemma inject_Z_pos z : (0 < z)%Z -> 0 < inject_Z z.
Proof. intros H. rewrite Zlt_Qlt in H. exact H. Qed.

Lemma inject_Z_minus a b : inject_Z (a - b) == inject_Z a - inject_Z b.
Proof.
  unfold Z.sub. rewrite inject_Z_plus, inject_Z_opp. reflexivity.
Qed.

End OrderHelpers.

Section RintTheory.

Lemma rint_bounds q : inject_Z (rint q) - (1 # 2) <= q /\ q <= inject_Z (rint q) + (1 # 2).
Proof.
  unfold rint.
  pose proof (Qfloor_le q) as Hlo.
  pose proof (Qlt_floor q) as Hhi.
  rewrite inject_Z_plus in Hhi. change (inject_Z 1) with 1 in Hhi.
  destruct (Qcompare_spec (q - inject_Z (Qfloor q)) (1 # 2)) as [He|Hl|Hg];
    try destruct (Z.even (Qfloor q));
    rewrite ?inject_Z_plus; change (inject_Z 1) with 1; lra.
Qed.

Lemma rint_Z z : rint (inject_Z z) = z.
Proof.
  unfold rint. rewrite Qfloor_Z.
  destruct (Qcompare_spec (inject_Z z - inject_Z z) (1 # 2)) as [He|Hl|Hg];
    [lra | reflexivity | lra].
Qed.

Lemma Qfloor_eq_intro q z : inject_Z z <= q -> q < inject_Z (z + 1) -> Qfloor q = z.
Proof.
  intros Hlo Hhi.
  pose proof (Qfloor_le q) as H1.
  pose proof (Qlt_floor q) as H2.
  assert (Ha : inject_Z z < inject_Z (Qfloor q + 1)) by lra.
  assert (Hb : inject_Z (Qfloor q) < inject_Z (z + 1)) by lra.
  rewrite <- Zlt_Qlt in Ha, Hb. lia.
Qed.

Lemma rint_mono a b : a <= b -> (rint a <= rint b)%Z.
Proof.
  intros Hab.
  pose proof (Qfloor_resp_le _ _ Hab) as Hf.
  destruct (Z.eq_dec (Qfloor a) (Qfloor b)) as [Heq|Hne].
  - unfold rint. rewrite <- Heq.
    destruct (Qcompare_spec (a - inject_Z (Qfloor a)) (1 # 2)) as [He|Hl|Hg];
      destruct (Qcompare_spec (b - inject_Z (Qfloor a)) (1 # 2)) as [He'|Hl'|Hg'];
      try destruct (Z.even (Qfloor a)); try lia; lra.
  - assert (Hlt : (Qfloor a + 1 <= Qfloor b)%Z) by lia.
    assert (Ha : (rint a <= Qfloor a + 1)%Z).
    { unfold rint. destruct (Qcompare _ _); try destruct (Z.even _); lia. }
    assert (Hb : (Qfloor b <= rint b)%Z).
    { unfold rint. destruct (Qcompare _ _); try destruct (Z.even _); lia. }
    lia.
Qed.

Lemma rint_comp a b : a == b -> rint a = rint b.
Proof.
  intros Hab. apply Z.le_antisymm; apply rint_mono; rewrite Hab; apply Qle_refl.
Qed.

End RintTheory.

Section Pow2Theory.

Lemma pow2_pos e : 0 < pow2 e.
Proof. apply Qpower_0_lt. reflexivity. Qed.

Lemma pow2_add a b : pow2 (a + b) == pow2 a * pow2 b.
Proof. apply Qpower_plus. discriminate. Qed.

Lemma pow2_le a b : (a <= b)%Z -> pow2 a <= pow2 b.
Proof. intros H. apply Qpower_le_compat_l; [exact H | discriminate]. Qed.

Lemma pow2_lt a b : (a < b)%Z -> pow2 a < pow2 b.
Proof. intros H. apply Qpower_lt_compat_l; [exact H | reflexivity]. Qed.

Lemma pow2_inject n : (0 <= n)%Z -> inject_Z (2 ^ n) == pow2 n.
Proof. intros H. apply (Zpower_Qpower 2 n H). Qed.

Lemma pow2_split a b : pow2 a == pow2 b * pow2 (a - b).
Proof. rewrite <- pow2_add. replace (b + (a - b))%Z with a by lia. reflexivity. Qed.

End Pow2Theory.

Section Log2Theory.

Lemma Z_log2_pow2 n : (0 < n)%Z ->
  pow2 (Z.log2 n) <= inject_Z n /\ inject_Z n < pow2 (Z.log2 n + 1).
Proof.
  intros Hn.
  destruct (Z.log2_spec n Hn) as [Hlo Hhi].
  pose proof (Z.log2_nonneg n) as Hnn.
  rewrite <- !pow2_inject by lia.
  rewrite <- Zle_Qle, <- Zlt_Qlt.
  replace (Z.log2 n + 1)%Z with (Z.succ (Z.log2 n)) by lia. lia.
Qed.

Lemma Qnum_den_eq q : q * inject_Z (Zpos (Qden q)) == inject_Z (Qnum q).
Proof.
  destruct q as [n d]. unfold Qeq, Qmult, inject_Z. simpl. lia.
Qed.

Lemma Qlog2_spec q : 0 < q -> pow2 (Qlog2 q) <= q /\ q < pow2 (Qlog2 q + 1).
Proof.
  intros Hq.
  assert (Hn : (0 < Qnum q)%Z).
  { destruct q as [n d]. unfold Qlt in Hq. simpl in *. lia. }
  destruct (Z_log2_pow2 _ Hn) as [Hn1 Hn2].
  destruct (Z_log2_pow2 (Zpos (Qden q)) eq_refl) as [Hd1 Hd2].
  pose proof (Qnum_den_eq q) as Hqd.
  set (a := Z.log2 (Qnum q)) in *.
  set (b := Z.log2 (Zpos (Qden q))) in *.
  set (D := inject_Z (Zpos (Qden q))) in *.
  set (N := inject_Z (Qnum q)) in *.
  assert (HD : 0 < D) by (unfold D; rewrite <- (Zlt_Qlt 0); lia).
  assert (Hup : q < pow2 (a - b + 1)).
  { apply (Qmult_lt_r _ _ D HD). rewrite Hqd.
    apply Qlt_le_trans with (1 := Hn2).
    replace (a + 1)%Z with ((a - b + 1) + b)%Z by lia.
    rewrite pow2_add. apply Qmult_le_l; [apply pow2_pos | exact Hd1]. }
  assert (Hdn : pow2 (a - b - 1) <= q).
  { apply (Qmult_le_r _ _ D HD). rewrite Hqd.
    apply Qle_trans with (2 := Hn1).
    replace a with ((a - b - 1) + (b + 1))%Z at 2 by lia.
    rewrite pow2_add. apply Qmult_le_l; [apply pow2_pos | apply Qlt_le_weak, Hd2]. }
  unfold Qlog2. fold a b.
  destruct (Qle_bool (pow2 (a - b)) q) eqn:Hc.
  - apply Qle_bool_iff in Hc. split; assumption.
  - split; [exact Hdn|].
    replace (a - b - 1 + 1)%Z with (a - b)%Z by lia.
    apply Qnot_le_lt. intros H. apply Qle_bool_iff in H. congruence.
Qed.

Lemma pow2_bracket_unique q e e' :
  pow2 e <= q -> q < pow2 (e + 1) -> pow2 e' <= q -> q < pow2 (e' + 1) -> e = e'.
Proof.
  intros H1 H2 H3 H4.
  destruct (Z.lt_trichotomy e e') as [Hlt|[Heq|Hgt]]; [|exact Heq|].
  - pose proof (pow2_le (e + 1) e' ltac:(lia)). lra.
  - pose proof (pow2_le (e' + 1) e ltac:(lia)). lra.
Qed.

Lemma Qlog2_unique q e : pow2 e <= q -> q < pow2 (e + 1) -> Qlog2 q = e.
Proof.
  intros H1 H2.
  assert (Hq : 0 < q) by (pose proof (pow2_pos e); lra).
  destruct (Qlog2_spec q Hq) as [H3 H4].
  exact (pow2_bracket_unique q _ _ H3 H4 H1 H2).
Qed.

Lemma Qlog2_mono a b : 0 < a -> a <= b -> (Qlog2 a <= Qlog2 b)%Z.
Proof.
  intros Ha Hab.
  destruct (Qlog2_spec a Ha) as [H1 H2].
  destruct (Qlog2_spec b ltac:(lra)) as [H3 H4].
  destruct (Z_le_gt_dec (Qlog2 a) (Qlog2 b)) as [Hle|Hgt]; [exact Hle|].
  pose proof (pow2_le (Qlog2 b + 1) (Qlog2 a) ltac:(lia)). lra.
Qed.

End Log2Theory.

Section RoundTheory.

Lemma scaled_bounds q : 0 < q ->
  pow2 52 <= q * pow2 (52 - Qlog2 q) /\ q * pow2 (52 - Qlog2 q) < pow2 53.
Proof.
  intros Hq. destruct (Qlog2_spec q Hq) as [H1 H2].
  pose proof (pow2_pos (52 - Qlog2 q)) as Hp.
  rewrite (pow2_split 52 (Qlog2 q)).
  rewrite (pow2_split 53 (Qlog2 q + 1)).
  replace (53 - (Qlog2 q + 1))%Z with (52 - Qlog2 q)%Z by lia.
  split; [apply Qmult_le_r | apply Qmult_lt_r]; assumption.
Qed.

Lemma rint_scaled_bounds q : 0 < q ->
  (2 ^ 52 <= rint (q * pow2 (52 - Qlog2 q)) <= 2 ^ 53)%Z.
Proof.
  intros Hq. destruct (scaled_bounds q Hq) as [H1 H2].
  rewrite <- (pow2_inject 52) in H1 by lia.
  rewrite <- (pow2_inject 53) in H2 by lia.
  split.
  - rewrite <- (rint_Z (2 ^ 52)). apply rint_mono, H1.
  - rewrite <- (rint_Z (2 ^ 53)). apply rint_mono, Qlt_le_weak, H2.
Qed.

Lemma round_pos_unfold q :
  round_pos q = inject_Z (rint (q * pow2 (52 - Qlog2 q))) * pow2 (Qlog2 q - 52).
Proof. reflexivity. Qed.

Lemma round_pos_bounds q : 0 < q ->
  pow2 (Qlog2 q) <= round_pos q /\ round_pos q <= pow2 (Qlog2 q + 1).
Proof.
  intros Hq. destruct (rint_scaled_bounds q Hq) as [H1 H2].
  rewrite round_pos_unfold.
  rewrite Zle_Qle in H1, H2.
  rewrite (pow2_inject 52) in H1 by lia.
  rewrite (pow2_inject 53) in H2 by lia.
  pose proof (pow2_pos (Qlog2 q - 52)) as Hp.
  rewrite (pow2_split (Qlog2 q) 52).
  rewrite (pow2_split (Qlog2 q + 1) 53).
  replace (Qlog2 q + 1 - 53)%Z with (Qlog2 q - 52)%Z by lia.
  split; apply Qmult_le_r; assumption.
Qed.

Lemma round_pos_pos q : 0 < q -> 0 < round_pos q.
Proof.
  intros Hq. destruct (round_pos_bounds q Hq) as [H _].
  pose proof (pow2_pos (Qlog2 q)). lra.
Qed.

Lemma round_pos_mono a b : 0 < a -> a <= b -> round_pos a <= round_pos b.
Proof.
  intros Ha Hab.
  assert (Hb : 0 < b) by lra.
  pose proof (Qlog2_mono a b Ha Hab) as He.
  destruct (Z.eq_dec (Qlog2 a) (Qlog2 b)) as [Heq|Hne].
  - rewrite !round_pos_unfold, <- Heq.
    apply Qmult_le_compat_r; [|apply Qlt_le_weak, pow2_pos].
    rewrite <- Zle_Qle. apply rint_mono.
    apply Qmult_le_compat_r; [exact Hab | apply Qlt_le_weak, pow2_pos].
  - destruct (round_pos_bounds a Ha) as [_ H1].
    destruct (round_pos_bounds b Hb) as [H2 _].
    pose proof (pow2_le (Qlog2 a + 1) (Qlog2 b) ltac:(lia)). lra.
Qed.

Lemma round_pos_comp a b : 0 < a -> a == b -> round_pos a == round_pos b.
Proof.
  intros Ha Hab. apply Qle_antisym; apply round_pos_mono; lra.
Qed.

Lemma b64_pos q : 0 < q -> b64 q = round_pos q.
Proof.
  intros Hq. unfold b64.
  destruct (Qcompare_spec q 0) as [H|H|H]; [lra | lra | reflexivity].
Qed.

Lemma b64_neg q : q < 0 -> b64 q = - round_pos (- q).
Proof.
  intros Hq. unfold b64.
  destruct (Qcompare_spec q 0) as [H|H|H]; [lra | reflexivity | lra].
Qed.

Lemma b64_zero q : q == 0 -> b64 q = 0.
Proof.
  intros Hq. unfold b64.
  destruct (Qcompare_spec q 0) as [H|H|H]; [reflexivity | lra | lra].
Qed.

(** Rounding is monotone. *)
Lemma b64_mono a b : a <= b -> b64 a <= b64 b.
Proof.
  intros Hab.
  destruct (Qlt_le_dec 0 a) as [Ha|Ha].
  - rewrite (b64_pos a Ha), (b64_pos b) by lra. apply round_pos_mono; assumption.
  - destruct (Qlt_le_dec 0 b) as [Hb|Hb].
    + rewrite (b64_pos b Hb). pose proof (round_pos_pos b Hb).
      destruct (Qlt_le_dec a 0) as [Ha'|Ha'].
      * rewrite (b64_neg a Ha'). pose proof (round_pos_pos (- a) ltac:(lra)). lra.
      * rewrite (b64_zero a) by lra. lra.
    + destruct (Qlt_le_dec b 0) as [Hb'|Hb'].
      * rewrite (b64_neg a) by lra. rewrite (b64_neg b Hb').
        pose proof (round_pos_mono (- b) (- a) ltac:(lra) ltac:(lra)). lra.
      * rewrite (b64_zero b) by lra.
        destruct (Qlt_le_dec a 0) as [Ha'|Ha'].
        -- rewrite (b64_neg a Ha'). pose proof (round_pos_pos (- a) ltac:(lra)). lra.
        -- rewrite (b64_zero a) by lra. lra.
Qed.

#[global] Instance b64_comp : Proper (Qeq ==> Qeq) b64.
Proof.
  intros a b Hab. apply Qle_antisym; apply b64_mono; rewrite Hab; apply Qle_refl.
Qed.

Lemma b64_gt_0 q : 0 < q -> 0 < b64 q.
Proof. intros Hq. rewrite (b64_pos q Hq). apply round_pos_pos, Hq. Qed.

(** A number with at most 53 significant bits is its own rounding. *)
Lemma round_pos_dyadic m j : (0 < m < 2 ^ 53)%Z ->
  round_pos (inject_Z m * pow2 j) == inject_Z m * pow2 j.
Proof.
  intros [Hm1 Hm2].
  destruct (Z_log2_pow2 m Hm1) as [Hk1 Hk2].
  pose proof (pow2_pos j) as Hj.
  assert (Hk : (Z.log2 m < 53)%Z) by (apply Z.log2_lt_pow2; lia).
  pose proof (Z.log2_nonneg m) as Hk0.
  assert (He : Qlog2 (inject_Z m * pow2 j) = (Z.log2 m + j)%Z).
  { apply Qlog2_unique.
    - rewrite pow2_add. apply Qmult_le_r; assumption.
    - replace (Z.log2 m + j + 1)%Z with ((Z.log2 m + 1) + j)%Z by lia.
      rewrite pow2_add. apply Qmult_lt_r; assumption. }
  rewrite round_pos_unfold, He.
  assert (Hs : inject_Z m * pow2 j * pow2 (52 - (Z.log2 m + j))
               == inject_Z (m * 2 ^ (52 - Z.log2 m))).
  { rewrite inject_Z_mult, pow2_inject by lia.
    rewrite <- Qmult_assoc, <- pow2_add.
    replace (j + (52 - (Z.log2 m + j)))%Z with (52 - Z.log2 m)%Z by lia.
    reflexivity. }
  rewrite (rint_comp _ _ Hs), rint_Z.
  rewrite inject_Z_mult, pow2_inject by lia.
  rewrite <- Qmult_assoc, <- pow2_add.
  replace (52 - Z.log2 m + (Z.log2 m + j - 52))%Z with j by lia.
  reflexivity.
Qed.

Lemma b64_dyadic m j : (Z.abs m < 2 ^ 53)%Z ->
  b64 (inject_Z m * pow2 j) == inject_Z m * pow2 j.
Proof.
  intros Hm. pose proof (pow2_pos j) as Hj.
  destruct (Z.lt_trichotomy m 0) as [Hneg|[Hz|Hpos]].
  - assert (Hq : inject_Z m * pow2 j < 0).
    { assert (inject_Z m < 0) by (rewrite (Zlt_Qlt m 0) in Hneg; exact Hneg). nra. }
    rewrite (b64_neg _ Hq).
    assert (Hopp : - (inject_Z m * pow2 j) == inject_Z (- m) * pow2 j)
      by (rewrite inject_Z_opp; ring).
    assert (Hq' : 0 < - (inject_Z m * pow2 j)) by lra.
    rewrite (round_pos_comp _ _ Hq' Hopp).
    rewrite (round_pos_dyadic (- m) j) by lia.
    rewrite inject_Z_opp. ring.
  - subst m. rewrite b64_zero; [|ring]. ring.
  - assert (Hq : 0 < inject_Z m * pow2 j).
    { assert (0 < inject_Z m) by (rewrite (Zlt_Qlt 0 m) in Hpos; exact Hpos). nra. }
    rewrite (b64_pos _ Hq). apply round_pos_dyadic. lia.
Qed.

Lemma b64_Z z : (Z.abs z < 2 ^ 53)%Z -> b64 (inject_Z z) == inject_Z z.
Proof.
  intros Hz. pose proof (b64_dyadic z 0 Hz) as H.
  change (pow2 0) with 1 in H.
  rewrite <- (Qmult_1_r (inject_Z z)). exact H.
Qed.

Lemma b64_dyadic_le m j : (Z.abs m <= 2 ^ 53)%Z ->
  b64 (inject_Z m * pow2 j) == inject_Z m * pow2 j.
Proof.
  intros Hm.
  destruct (Z.eq_dec (Z.abs m) (2 ^ 53)%Z) as [He|Hne].
  - assert (Hs : inject_Z m * pow2 j == inject_Z (Z.sgn m) * pow2 (53 + j)).
    { assert (Hz : (Z.sgn m * 2 ^ 53 = m)%Z) by lia.
      rewrite pow2_add, <- (pow2_inject 53) by lia.
      rewrite Qmult_assoc, <- inject_Z_mult, Hz. reflexivity. }
    rewrite Hs. apply b64_dyadic. lia.
  - apply b64_dyadic. lia.
Qed.

Lemma b64_is_dyadic q :
  exists m j, (Z.abs m <= 2 ^ 53)%Z /\ b64 q == inject_Z m * pow2 j.
Proof.
  destruct (Qlt_le_dec 0 q) as [Hq|Hq].
  - destruct (rint_scaled_bounds q Hq) as [H1 H2].
    exists (rint (q * pow2 (52 - Qlog2 q))), (Qlog2 q - 52)%Z.
    rewrite (b64_pos q Hq), round_pos_unfold. split; [lia | reflexivity].
  - destruct (Qlt_le_dec q 0) as [Hq'|Hq'].
    + assert (Hq'' : 0 < - q) by lra.
      destruct (rint_scaled_bounds (- q) Hq'') as [H1 H2].
      exists (- rint (- q * pow2 (52 - Qlog2 (- q))))%Z, (Qlog2 (- q) - 52)%Z.
      rewrite (b64_neg q Hq'), round_pos_unfold. split; [lia|].
      rewrite inject_Z_opp. ring.
    + exists 0%Z, 0%Z. rewrite (b64_zero q) by lra. split; [simpl; lia | reflexivity].
Qed.

(** Rounding a double changes nothing. *)
Lemma b64_idem q : b64 (b64 q) == b64 q.
Proof.
  destruct (b64_is_dyadic q) as (m & j & Hm & Hq).
  rewrite Hq. apply b64_dyadic_le, Hm.
Qed.

Lemma b64_ge_0 q : 0 <= q -> 0 <= b64 q.
Proof.
  intros Hq. rewrite <- (b64_zero 0) by reflexivity. apply b64_mono, Hq.
Qed.

Lemma py_float_exact z : (Z.abs z < 2 ^ 53)%Z -> py_float z == inject_Z z.
Proof. apply b64_Z. Qed.

Lemma py_float_mono a b : (a <= b)%Z -> py_float a <= py_float b.
Proof. intros H. apply b64_mono. rewrite <- Zle_Qle. exact H. Qed.

(** The relative error of one rounding is at most [2 ^ -53]. *)
Lemma b64_rel_err x : 0 < x ->
  x * (1 - pow2 (-53)) <= b64 x /\ b64 x <= x * (1 + pow2 (-53)).
Proof.
  intros Hx. rewrite (b64_pos x Hx), round_pos_unfold.
  destruct (Qlog2_spec x Hx) as [He _].
  set (e := Qlog2 x) in *.
  destruct (rint_bounds (x * pow2 (52 - e))) as [Hlo Hhi].
  set (r := inject_Z (rint (x * pow2 (52 - e)))) in *.
  pose proof (pow2_pos (e - 52)) as Hp.
  assert (Hm : x * pow2 (52 - e) * pow2 (e - 52) == x).
  { rewrite <- Qmult_assoc, <- pow2_add.
    replace (52 - e + (e - 52))%Z with 0%Z by lia. change (pow2 0) with 1. ring. }
  assert (Hh : (1 # 2) * pow2 (e - 52) <= x * pow2 (-53)).
  { assert (E : (1 # 2) * pow2 (e - 52) == pow2 e * pow2 (-53)).
    { rewrite (pow2_split e 52), (pow2_split (-53) (-52)).
      change (pow2 (-53 - -52)) with (1 # 2). change (pow2 52) with 4503599627370496.
      change (pow2 (-52)) with (1 # 4503599627370496). field. }
    rewrite E. apply Qmult_le_compat_r; [exact He | apply Qlt_le_weak, pow2_pos]. }
  pose proof (Qmult_le_compat_r _ _ (pow2 (e - 52)) Hlo (Qlt_le_weak _ _ Hp)) as H1.
  pose proof (Qmult_le_compat_r _ _ (pow2 (e - 52)) Hhi (Qlt_le_weak _ _ Hp)) as H2.
  rewrite Hm in H1, H2.
  split.
  - assert (E1 : (r + (1 # 2)) * pow2 (e - 52)
                 == r * pow2 (e - 52) + (1 # 2) * pow2 (e - 52)) by ring.
    rewrite E1 in H2. lra.
  - assert (E2 : (r - (1 # 2)) * pow2 (e - 52)
                 == r * pow2 (e - 52) - (1 # 2) * pow2 (e - 52)) by ring.
    rewrite E2 in H1. lra.
Qed.

(** The model against doubles printed by Python
    ([float.as_integer_ratio]). *)
Example b64_one_tenth : b64 (1 # 10) == 3602879701896397 # 36028797018963968.
Proof. vm_compute. reflexivity. Qed.

Example b64_one_third : b64 (1 # 3) == 6004799503160661 # 18014398509481984.
Proof. vm_compute. reflexivity. Qed.

Example b64_one_over_49 : b64 (1 # 49) == 5882252574524729 # 288230376151711744.
Proof. vm_compute. reflexivity. Qed.

Example b64_0_2 : lit_0_2 == 3602879701896397 # 18014398509481984.
Proof. vm_compute. reflexivity. Qed.

Example b64_0_8 : lit_0_8 == 3602879701896397 # 4503599627370496.
Proof. vm_compute. reflexivity. Qed.

Example b64_1_38 : lit_1_38 == 1553741871442821 # 1125899906842624.
Proof. vm_compute. reflexivity. Qed.

Example b64_3_tenths : b64 (3 * b64 (1 # 10)) == 1351079888211149 # 4503599627370496.
Proof. vm_compute. reflexivity. Qed.

Example b64_30_tenths : b64 (30 * b64 (1 # 10)) == 3.
Proof. vm_compute. reflexivity. Qed.

End RoundTheory.

(** ** Indices computed through floats *)

Section IndexTheory.

Lemma py_int_nonneg_intro x z :
  inject_Z z <= x -> x < inject_Z (z + 1) -> (0 <= z)%Z -> py_int x = z.
Proof.
  intros Hlo Hhi Hz. unfold py_int.
  assert (H0 : 0 <= x).
  { rewrite Zle_Qle in Hz. change (inject_Z 0) with 0 in Hz. lra. }
  apply Qle_bool_iff in H0. rewrite H0. apply Qfloor_eq_intro; assumption.
Qed.

(** [int(n * c)] for a double [c] that lies just above [p/5]: the
    rounding of the product never reaches the next integer. *)
Lemma py_int_fifths n c p :
  (0 <= n < 2 ^ 50)%Z -> (0 <= p <= 4)%Z ->
  inject_Z p * (1 # 5) <= c -> c <= inject_Z p * (1 # 5) + (1 # 18014398509481984) ->
  py_int (b64 (py_float n * c)) = (p * n / 5)%Z.
Proof.
  intros Hn Hp Hc1 Hc2.
  assert (Hf : py_float n == inject_Z n) by (apply py_float_exact; lia).
  pose proof (Z.div_mod (p * n) 5 ltac:(lia)) as Hdm.
  pose proof (Z.mod_pos_bound (p * n) 5 ltac:(lia)) as Hr.
  set (K := (p * n / 5)%Z) in *. set (r := ((p * n) mod 5)%Z) in *.
  assert (HK : (0 <= K)%Z) by (apply Z.div_pos; lia).
  assert (Hpn : (0 <= p * n <= 4 * n)%Z) by nia.
  assert (HK2 : (K < 2 ^ 50)%Z) by lia.
  assert (Hq : inject_Z p * inject_Z n == 5 * inject_Z K + inject_Z r).
  { rewrite <- inject_Z_mult, Hdm, inject_Z_plus, inject_Z_mult. reflexivity. }
  assert (Hr1 : inject_Z 0 <= inject_Z r) by (rewrite <- Zle_Qle; lia).
  assert (Hr2 : inject_Z r <= inject_Z 4) by (rewrite <- Zle_Qle; lia).
  assert (Hn1 : inject_Z 0 <= inject_Z n) by (rewrite <- Zle_Qle; lia).
  assert (Hn2 : inject_Z n <= inject_Z 1125899906842624) by (rewrite <- Zle_Qle; lia).
  change (inject_Z 0) with 0 in Hr1, Hn1. change (inject_Z 4) with 4 in Hr2.
  change (inject_Z 1125899906842624) with 1125899906842624 in Hn2.
  assert (Hx1 : inject_Z K <= py_float n * c).
  { rewrite Hf.
    apply Qle_trans with (inject_Z n * (inject_Z p * (1 # 5))).
    - assert (E : inject_Z n * (inject_Z p * (1 # 5)) == (inject_Z p * inject_Z n) * (1 # 5))
        by ring.
      rewrite E, Hq. lra.
    - apply Qmult_le_nonneg_l; assumption. }
  assert (Hx2 : py_float n * c <= inject_Z (8 * K + 7) * pow2 (-3)).
  { rewrite Hf.
    apply Qle_trans with (inject_Z n * (inject_Z p * (1 # 5) + (1 # 18014398509481984))).
    - apply Qmult_le_nonneg_l; assumption.
    - assert (E : inject_Z n * (inject_Z p * (1 # 5) + (1 # 18014398509481984))
                  == (inject_Z p * inject_Z n) * (1 # 5)
                     + inject_Z n * (1 # 18014398509481984)) by ring.
      rewrite E, Hq. rewrite inject_Z_plus, inject_Z_mult.
      change (pow2 (-3)) with (1 # 8). change (inject_Z 8) with 8. change (inject_Z 7) with 7.
      lra. }
  apply b64_mono in Hx1, Hx2.
  rewrite (b64_Z K) in Hx1 by lia.
  rewrite (b64_dyadic (8 * K + 7) (-3)) in Hx2 by lia.
  apply py_int_nonneg_intro; [exact Hx1 | | exact HK].
  eapply Qle_lt_trans; [exact Hx2|].
  rewrite !inject_Z_plus, inject_Z_mult.
  change (pow2 (-3)) with (1 # 8). change (inject_Z 8) with 8.
  change (inject_Z 7) with 7. change (inject_Z 1) with 1. lra.
Qed.

Lemma lit_0_2_bounds :
  inject_Z 1 * (1 # 5) <= lit_0_2 /\
  lit_0_2 <= inject_Z 1 * (1 # 5) + (1 # 18014398509481984).
Proof. split; vm_compute; discriminate. Qed.

Lemma lit_0_8_bounds :
  inject_Z 4 * (1 # 5) <= lit_0_8 /\
  lit_0_8 <= inject_Z 4 * (1 # 5) + (1 # 18014398509481984).
Proof. split; vm_compute; discriminate. Qed.

(** [int(n * 0.2)] is [n // 5] and [int(n * 0.8)] is [4 * n // 5]. *)
Lemma int_len_0_2 n : (0 <= n < 2 ^ 50)%Z ->
  py_int (b64 (py_float n * lit_0_2)) = (n / 5)%Z.
Proof.
  intros Hn. destruct lit_0_2_bounds as [H1 H2].
  rewrite (py_int_fifths n lit_0_2 1 Hn ltac:(lia) H1 H2).
  f_equal. lia.
Qed.

Lemma int_len_0_8 n : (0 <= n < 2 ^ 50)%Z ->
  py_int (b64 (py_float n * lit_0_8)) = (4 * n / 5)%Z.
Proof.
  intros Hn. destruct lit_0_8_bounds as [H1 H2].
  exact (py_int_fifths n lit_0_8 4 Hn ltac:(lia) H1 H2).
Qed.

End IndexTheory.

(** ** Lists: differences, sorting, means *)

Section ListTheory.

Lemma Forall_insert_sorted (P : Q -> Prop) x l :
  P x -> Forall P l -> Forall P (insert_sorted x l).
Proof.
  intros Hx Hl. induction Hl as [|y l Hy Hl IH]; simpl.
  - by constructor.
  - destruct (Qle_bool x y); repeat constructor; assumption.
Qed.

Lemma Forall_np_sort (P : Q -> Prop) l : Forall P l -> Forall P (np_sort l).
Proof.
  induction 1 as [|x l Hx Hl IH]; simpl; [constructor|].
  by apply Forall_insert_sorted.
Qed.

Lemma length_insert_sorted x l : length (insert_sorted x l) = S (length l).
Proof.
  induction l as [|y l IH]; simpl; [done|].
  destruct (Qle_bool x y); simpl; by rewrite ?IH.
Qed.

Lemma length_np_sort l : length (np_sort l) = length l.
Proof.
  induction l as [|x l IH]; simpl; [done|].
  by rewrite length_insert_sorted, IH.
Qed.

Lemma np_diff_cons x y a : np_diff (x :: y :: a) = (y - x) :: np_diff (y :: a).
Proof.
  unfold np_diff. simpl. by rewrite Nat.sub_0_r.
Qed.

Lemma length_np_diff a : length (np_diff a) = (length a - 1)%nat.
Proof.
  unfold np_diff. rewrite length_zip_with, length_drop, length_take. lia.
Qed.

Lemma np_diff_pos a : strictly_increasing a -> Forall (fun d => 0 < d) (np_diff a).
Proof.
  induction a as [|x [|y a] IH]; intros Hs.
  - constructor.
  - constructor.
  - destruct Hs as [Hxy Hs]. rewrite np_diff_cons. constructor; [lra|].
    apply IH, Hs.
Qed.

Lemma py_slice_length {A} (a : list A) lo hi :
  length (py_slice a lo hi) =
  Nat.min (Z.to_nat hi - Z.to_nat lo) (length a - Z.to_nat lo).
Proof. unfold py_slice. by rewrite length_take, length_drop. Qed.

Lemma Forall_py_slice {A} (P : A -> Prop) (a : list A) lo hi :
  Forall P a -> Forall P (py_slice a lo hi).
Proof. intros H. unfold py_slice. by apply Forall_take, Forall_drop. Qed.

Lemma np_sum_Num a : np_sum (Num <$> a) = Num (Qsum a).
Proof.
  unfold np_sum, Qsum. induction a as [|x a IH]; [done|].
  rewrite fmap_cons. cbn [foldr]. by rewrite IH.
Qed.

Lemma Qsum_pos a : a <> [] -> Forall (fun d => 0 < d) a -> 0 < Qsum a.
Proof.
  intros Hne Hall. destruct Hall as [|x a Hx Hall]; [done|]. clear Hne.
  revert x Hx. induction Hall as [|y a Hy Hall IH]; intros x Hx; unfold Qsum; simpl.
  - lra.
  - specialize (IH y Hy). unfold Qsum in IH. simpl in IH. lra.
Qed.

Lemma Qeqb_false x : ~ x == 0 -> Qeqb x 0 = false.
Proof.
  intros H. unfold Qeqb. destruct (Qeq_bool x 0) eqn:E; [|done].
  apply Qeq_bool_iff in E. contradiction.
Qed.

Lemma length_Q_pos {A} (a : list A) : a <> [] -> 0 < inject_Z (Z.of_nat (length a)).
Proof.
  intros H. apply inject_Z_pos. destruct a; [done|]. simpl. lia.
Qed.

(** The mean of a non-empty array of finite values. *)
Lemma np_mean_Num a : a <> [] ->
  np_mean (Num <$> a) = Num (Qsum a / inject_Z (Z.of_nat (length a))).
Proof.
  intros Hne. unfold np_mean. rewrite np_sum_Num, length_fmap. simpl.
  rewrite Qeqb_false; [done|].
  pose proof (length_Q_pos a Hne). lra.
Qed.

Lemma np_mean_nil : np_mean [] = NaN.
Proof. reflexivity. Qed.

Lemma Qdiv_pos a b : 0 < a -> 0 < b -> 0 < a / b.
Proof.
  intros Ha Hb. apply Qlt_shift_div_l; [exact Hb | lra].
Qed.

End ListTheory.

(** ** The trimmed mean of the inter-beat intervals *)

Section TrimTheory.

(** The slice as the integers it comes down to. *)
Lemma trimmed_intervals_unfold beats :
  (Z.of_nat (length beats) < 2 ^ 50)%Z ->
  trimmed_intervals beats =
  py_slice (np_sort (np_diff beats))
    (Z.of_nat (length beats) / 5) (4 * Z.of_nat (length beats) / 5).
Proof.
  intros Hn. unfold trimmed_intervals.
  rewrite int_len_0_2, int_len_0_8 by lia. done.
Qed.

Lemma trimmed_intervals_length beats :
  (2 <= length beats)%nat -> (Z.of_nat (length beats) < 2 ^ 50)%Z ->
  (1 <= length (trimmed_intervals beats))%nat.
Proof.
  intros H2 Hn. rewrite trimmed_intervals_unfold by done.
  rewrite py_slice_length, length_np_sort, length_np_diff.
  pose proof (Z.div_mod (Z.of_nat (length beats)) 5 ltac:(lia)).
  pose proof (Z.mod_pos_bound (Z.of_nat (length beats)) 5 ltac:(lia)).
  pose proof (Z.div_mod (4 * Z.of_nat (length beats)) 5 ltac:(lia)).
  pose proof (Z.mod_pos_bound (4 * Z.of_nat (length beats)) 5 ltac:(lia)).
  lia.
Qed.

Lemma trimmed_intervals_pos beats :
  strictly_increasing beats -> Forall (fun d => 0 < d) (trimmed_intervals beats).
Proof.
  intros Hs. unfold trimmed_intervals.
  by apply Forall_py_slice, Forall_np_sort, np_diff_pos.
Qed.

Lemma pred_bpm_of_mean beats :
  trimmed_intervals beats <> [] ->
  Forall (fun d => 0 < d) (trimmed_intervals beats) ->
  pred_bpm beats =
  Num (60 / (Qsum (trimmed_intervals beats)
             / inject_Z (Z.of_nat (length (trimmed_intervals beats))))).
Proof.
  intros Hne Hpos. unfold pred_bpm, pred_beat_len.
  rewrite np_mean_Num by done. simpl.
  rewrite Qeqb_false; [done|].
  pose proof (Qdiv_pos _ _ (Qsum_pos _ Hne Hpos) (length_Q_pos _ Hne)). lra.
Qed.

End TrimTheory.

(** ** Sorted arrays and interpolation *)

Section SortedTheory.

Lemma Qltb_lt a b : Qltb a b = true <-> a < b.
Proof.
  unfold Qltb. rewrite negb_true_iff. split.
  - intros H. apply Qnot_le_lt. intros Hle. apply Qle_bool_iff in Hle. congruence.
  - intros H. destruct (Qle_bool b a) eqn:E; [|done]. apply Qle_bool_iff in E. lra.
Qed.

Lemma Qltb_ge a b : Qltb a b = false <-> b <= a.
Proof.
  unfold Qltb. rewrite negb_false_iff. apply Qle_bool_iff.
Qed.

Lemma strictly_increasing_tail x a : strictly_increasing (x :: a) -> strictly_increasing a.
Proof. destruct a; [done | by intros [_ H]]. Qed.

Lemma non_decreasing_tail x a : non_decreasing (x :: a) -> non_decreasing a.
Proof. destruct a; [done | by intros [_ H]]. Qed.

Lemma strictly_increasing_SS a : strictly_increasing a -> StronglySorted Qlt a.
Proof.
  induction a as [|x a IH]; intros Hs; [constructor|].
  specialize (IH (strictly_increasing_tail _ _ Hs)).
  constructor; [exact IH|].
  destruct a as [|y a]; [constructor|]. destruct Hs as [Hxy _].
  apply StronglySorted_inv in IH as [_ Hall]. constructor; [exact Hxy|].
  eapply Forall_impl; [exact Hall|]. intros z Hz. simpl in Hz. lra.
Qed.

Lemma non_decreasing_SS a : non_decreasing a -> StronglySorted Qle a.
Proof.
  induction a as [|x a IH]; intros Hs; [constructor|].
  specialize (IH (non_decreasing_tail _ _ Hs)).
  constructor; [exact IH|].
  destruct a as [|y a]; [constructor|]. destruct Hs as [Hxy _].
  apply StronglySorted_inv in IH as [_ Hall]. constructor; [exact Hxy|].
  eapply Forall_impl; [exact Hall|]. intros z Hz. simpl in Hz. lra.
Qed.

Lemma SS_non_decreasing a : StronglySorted Qle a -> non_decreasing a.
Proof.
  induction 1 as [|x a Hss IH Hall]; [done|].
  destruct a as [|y a]; [done|]. split; [|exact IH].
  by apply Forall_cons in Hall as [Hxy _].
Qed.

Lemma strictly_increasing_non_decreasing a : strictly_increasing a -> non_decreasing a.
Proof.
  induction a as [|x [|y a] IH]; [done | done |].
  intros [Hxy Hs]. split; [lra | by apply IH].
Qed.

Lemma SS_nth (R : Q -> Q -> Prop) a i j :
  StronglySorted R a -> (i < j)%nat -> (j < length a)%nat -> R (nth i a 0) (nth j a 0).
Proof.
  intros Hss. revert i j. induction Hss as [|x a Hss IH Hall]; intros i j Hij Hj.
  - simpl in Hj. lia.
  - destruct j as [|j]; [lia|]. simpl in Hj.
    destruct i as [|i]; simpl.
    + rewrite List.Forall_forall in Hall. apply Hall, nth_In. lia.
    + apply IH; lia.
Qed.

Lemma SS_filter (R : Q -> Q -> Prop) (p : Q -> bool) a :
  StronglySorted R a -> StronglySorted R (List.filter p a).
Proof.
  induction 1 as [|x a Hss IH Hall]; simpl; [constructor|].
  destruct (p x); [|exact IH]. constructor; [exact IH|].
  rewrite List.Forall_forall in Hall |- *. intros z Hz.
  apply List.filter_In in Hz as [Hz _]. by apply Hall.
Qed.

Lemma SS_fmap_mono (f : Q -> Q) a :
  (forall u v, u <= v -> f u <= f v) ->
  StronglySorted Qle a -> StronglySorted Qle (f <$> a).
Proof.
  intros Hf. induction 1 as [|x a Hss IH Hall]; [constructor|].
  rewrite fmap_cons. constructor; [exact IH|].
  rewrite Forall_fmap. eapply Forall_impl; [exact Hall|].
  intros z Hz. simpl. by apply Hf.
Qed.

Lemma SS_fmap_seq (g : nat -> Q) s n :
  (forall i j, (i <= j)%nat -> g i <= g j) ->
  StronglySorted Qle (g <$> seq s n).
Proof.
  intros Hg. revert s. induction n as [|n IH]; intros s; [constructor|].
  simpl. constructor; [apply IH|].
  rewrite Forall_fmap, List.Forall_forall. intros j Hj.
  apply List.in_seq in Hj. simpl. apply Hg. lia.
Qed.

Lemma Forall_filter_true (p : Q -> bool) a :
  Forall (fun z => p z = true) (List.filter p a).
Proof.
  rewrite List.Forall_forall. intros z Hz. by apply List.filter_In in Hz as [_ Hz].
Qed.

Lemma Forall_filter_keep (P : Q -> Prop) (p : Q -> bool) a :
  Forall P a -> Forall P (List.filter p a).
Proof.
  rewrite !List.Forall_forall. intros H z Hz.
  apply List.filter_In in Hz as [Hz _]. by apply H.
Qed.

Lemma filter_same_array (p : Q -> bool) a b :
  (forall u v, u == v -> p u = p v) ->
  same_array a b -> same_array (List.filter p a) (List.filter p b).
Proof.
  intros Hp. induction 1 as [|x y a b Hxy Hab IH]; simpl; [constructor|].
  rewrite (Hp x y Hxy). destruct (p y); [constructor|]; assumption.
Qed.

Lemma filter_all (p : Q -> bool) a :
  Forall (fun z => p z = true) a -> List.filter p a = a.
Proof.
  induction 1 as [|x a Hx Hall IH]; simpl; [done|]. by rewrite Hx, IH.
Qed.

End SortedTheory.

Section SearchTheory.

Lemma searchsorted_le x v : (searchsorted x v <= length x)%nat.
Proof.
  induction x as [|x0 x IH]; simpl; [lia|]. destruct (Qltb x0 v); lia.
Qed.

Lemma searchsorted_below x v i : (i < searchsorted x v)%nat -> nth i x 0 < v.
Proof.
  revert i. induction x as [|x0 x IH]; intros i Hi; simpl in Hi; [lia|].
  destruct (Qltb x0 v) eqn:E; [|lia].
  destruct i as [|i]; simpl; [by apply Qltb_lt | apply IH; lia].
Qed.

Lemma searchsorted_above x v :
  (searchsorted x v < length x)%nat -> v <= nth (searchsorted x v) x 0.
Proof.
  induction x as [|x0 x IH]; simpl; [lia|].
  destruct (Qltb x0 v) eqn:E; intros H.
  - apply IH. lia.
  - by apply Qltb_ge.
Qed.

Lemma searchsorted_mono x v w : v <= w -> (searchsorted x v <= searchsorted x w)%nat.
Proof.
  intros Hvw. induction x as [|x0 x IH]; simpl; [lia|].
  destruct (Qltb x0 v) eqn:E; [|lia].
  apply Qltb_lt in E. assert (E' : Qltb x0 w = true) by (apply Qltb_lt; lra).
  rewrite E'. lia.
Qed.

Lemma searchsorted_knot x i :
  StronglySorted Qlt x -> (i < length x)%nat -> searchsorted x (nth i x 0) = i.
Proof.
  intros Hss. revert i. induction Hss as [|x0 x Hss IH Hall]; intros i Hi; simpl in Hi; [lia|].
  destruct i as [|i]; simpl.
  - assert (E : Qltb x0 x0 = false) by (apply Qltb_ge; lra). by rewrite E.
  - assert (E : Qltb x0 (nth i x 0) = true).
    { apply Qltb_lt. rewrite List.Forall_forall in Hall. apply Hall, nth_In. lia. }
    rewrite E, IH; [done | lia].
Qed.

End SearchTheory.

Section SegmentTheory.

Variables xl xh yl yh : Q.
Hypothesis Hx : xl < xh.

Let slope := (yh - yl) / (xh - xl).

Lemma slope_run : slope * (xh - xl) == yh - yl.
Proof. unfold slope. field. lra. Qed.

Lemma slope_nonneg : yl <= yh -> 0 <= slope.
Proof.
  intros Hy. unfold slope. apply Qle_shift_div_l; lra.
Qed.

Lemma segment_at_lo : slope * (xl - xl) + yl == yl.
Proof. ring. Qed.

Lemma segment_at_hi : slope * (xh - xl) + yl == yh.
Proof. rewrite slope_run. ring. Qed.

Lemma segment_mono v w : yl <= yh -> v <= w ->
  slope * (v - xl) + yl <= slope * (w - xl) + yl.
Proof.
  intros Hy Hvw.
  pose proof (Qmult_le_nonneg_l (v - xl) (w - xl) slope (slope_nonneg Hy) ltac:(lra)).
  lra.
Qed.

Lemma segment_le_hi v : yl <= yh -> v <= xh -> slope * (v - xl) + yl <= yh.
Proof.
  intros Hy Hv.
  pose proof (segment_mono v xh Hy Hv). pose proof segment_at_hi. lra.
Qed.

Lemma segment_ge_lo w : yl <= yh -> xl <= w -> yl <= slope * (w - xl) + yl.
Proof.
  intros Hy Hw.
  pose proof (segment_mono xl w Hy Hw). pose proof segment_at_lo. lra.
Qed.

End SegmentTheory.

Section InterpTheory.

Variables x y : list Q.
Hypothesis Hx : strictly_increasing x.
Hypothesis Hy : non_decreasing y.
Hypothesis Hlen : length x = length y.
Hypothesis H2 : (2 <= length x)%nat.

Lemma knots_lt i j : (i < j)%nat -> (j < length x)%nat -> nth i x 0 < nth j x 0.
Proof. apply SS_nth, strictly_increasing_SS, Hx. Qed.

Lemma values_le i j : (i <= j)%nat -> (j < length x)%nat -> nth i y 0 <= nth j y 0.
Proof.
  intros Hij Hj. destruct (decide (i = j)) as [->|Hne]; [apply Qle_refl|].
  apply SS_nth; [apply non_decreasing_SS, Hy | lia | lia].
Qed.

(** The interpolant never decreases. *)
Lemma interp1d_call_mono v w : v <= w -> interp1d_call x y v <= interp1d_call x y w.
Proof.
  intros Hvw.
  pose proof (searchsorted_mono x v w Hvw) as Hs.
  pose proof (searchsorted_le x w) as Hsw.
  unfold interp1d_call. cbv zeta.
  set (sv := searchsorted x v) in *. set (sw := searchsorted x w) in *.
  set (hv := clip sv 1 (length x - 1)). set (hw := clip sw 1 (length x - 1)).
  assert (Hhv : (1 <= hv <= length x - 1)%nat) by (unfold hv, clip; lia).
  assert (Hhw : (1 <= hw <= length x - 1)%nat) by (unfold hw, clip; lia).
  assert (Hh : (hv <= hw)%nat) by (unfold hv, hw, clip; lia).
  pose proof (knots_lt (hv - 1) hv ltac:(lia) ltac:(lia)) as Hxv.
  pose proof (knots_lt (hw - 1) hw ltac:(lia) ltac:(lia)) as Hxw.
  pose proof (values_le (hv - 1) hv ltac:(lia) ltac:(lia)) as Hyv.
  pose proof (values_le (hw - 1) hw ltac:(lia) ltac:(lia)) as Hyw.
  destruct (decide (hv = hw)) as [E|NE].
  - rewrite <- E. by apply segment_mono.
  - assert (Hv : v <= nth hv x 0).
    { destruct (decide (sv = hv)) as [Es|Ns].
      - rewrite <- Es. apply searchsorted_above. lia.
      - assert (sv = 0%nat /\ hv = 1%nat) as [Es0 Eh1] by (unfold hv, clip in *; lia).
        pose proof (searchsorted_above x v ltac:(fold sv; lia)) as Ha.
        fold sv in Ha. rewrite Es0 in Ha. rewrite Eh1.
        pose proof (knots_lt 0 1 ltac:(lia) ltac:(lia)). lra. }
    assert (Hw : nth (hw - 1) x 0 <= w).
    { apply Qlt_le_weak, searchsorted_below. fold sw. unfold hw, hv, clip in *. lia. }
    pose proof (segment_le_hi _ _ _ _ Hxv v Hyv Hv) as H1.
    pose proof (segment_ge_lo _ _ _ _ Hxw w Hyw Hw) as H3.
    pose proof (values_le hv (hw - 1) ltac:(lia) ltac:(lia)) as H4.
    lra.
Qed.

Lemma interp1d_call_comp v w : v == w -> interp1d_call x y v == interp1d_call x y w.
Proof.
  intros E. apply Qle_antisym; apply interp1d_call_mono; lra.
Qed.

(** At a knot the interpolant takes the value given there. *)
Lemma interp1d_call_knot i : (i < length x)%nat ->
  interp1d_call x y (nth i x 0) == nth i y 0.
Proof.
  intros Hi. unfold interp1d_call. cbv zeta.
  rewrite (searchsorted_knot x i (strictly_increasing_SS _ Hx) Hi).
  destruct i as [|i].
  - replace (clip 0 1 (length x - 1)) with 1%nat by (unfold clip; lia).
    simpl. ring.
  - replace (clip (S i) 1 (length x - 1)) with (S i) by (unfold clip; lia).
    replace (S i - 1)%nat with i by lia.
    pose proof (knots_lt i (S i) ltac:(lia) Hi) as Hk.
    apply segment_at_hi, Hk.
Qed.

(** Left of the first knot the first segment is extended. *)
Lemma interp1d_call_before v : v <= nth 0 x 0 ->
  interp1d_call x y v ==
  (nth 1 y 0 - nth 0 y 0) / (nth 1 x 0 - nth 0 x 0) * (v - nth 0 x 0) + nth 0 y 0.
Proof.
  intros Hv. unfold interp1d_call. cbv zeta.
  assert (Es : searchsorted x v = 0%nat).
  { destruct x as [|x0 x']; [done|]. simpl in *.
    assert (E : Qltb x0 v = false) by (by apply Qltb_ge). by rewrite E. }
  rewrite Es.
  replace (clip 0 1 (length x - 1)) with 1%nat by (unfold clip; lia).
  simpl. reflexivity.
Qed.

End InterpTheory.

(** ** The sampling grid of np.arange *)

Section GridTheory.

Lemma py_float_0 : py_float 0 = 0.
Proof. reflexivity. Qed.

Lemma py_float_1 : py_float 1 == 1.
Proof. apply (py_float_exact 1). simpl. lia. Qed.

Lemma py_float_nonneg i : (0 <= i)%Z -> 0 <= py_float i.
Proof. intros Hi. apply b64_ge_0, inject_Z_nonneg, Hi. Qed.

(** With [start = 0] the items are [0], [step] and [i * step], each
    rounded once. *)
Lemma arange_item_norm s i :
  arange_item 0 s i ==
  if (i =? 0)%Z then 0 else if (i =? 1)%Z then b64 s else b64 (py_float i * b64 s).
Proof.
  unfold arange_item. cbv zeta. rewrite py_float_0.
  assert (E1 : b64 (0 + s) == b64 s) by (apply b64_comp; ring).
  assert (E2 : b64 (b64 (0 + s) - 0) == b64 s).
  { rewrite <- (b64_idem s). apply b64_comp. rewrite E1. ring. }
  destruct (i =? 0)%Z; [reflexivity|].
  destruct (i =? 1)%Z; [exact E1|].
  rewrite <- (b64_idem (py_float i * b64 s)). apply b64_comp.
  rewrite E2. ring.
Qed.

Lemma arange_item_nonneg s i : 0 <= s -> (0 <= i)%Z -> 0 <= arange_item 0 s i.
Proof.
  intros Hs Hi. rewrite arange_item_norm.
  pose proof (b64_ge_0 s Hs) as Hb. pose proof (py_float_nonneg i Hi) as Hf.
  destruct (i =? 0)%Z; [apply Qle_refl|].
  destruct (i =? 1)%Z; [exact Hb|].
  apply b64_ge_0, Qmult_le_0_compat; assumption.
Qed.

(** The grid never steps back. *)
Lemma arange_item_mono s i j :
  0 <= s -> (0 <= i <= j)%Z -> arange_item 0 s i <= arange_item 0 s j.
Proof.
  intros Hs [Hi Hij].
  pose proof (arange_item_nonneg s j Hs ltac:(lia)) as Hj0.
  rewrite arange_item_norm in Hj0 |- *. rewrite (arange_item_norm s j).
  pose proof (b64_ge_0 s Hs) as Hb.
  destruct (Z.eqb_spec i 0) as [->|Hi0].
  - exact Hj0.
  - destruct (Z.eqb_spec j 0) as [->|Hj0']; [lia|].
    destruct (Z.eqb_spec i 1) as [->|Hi1].
    + destruct (Z.eqb_spec j 1) as [->|Hj1]; [apply Qle_refl|].
      rewrite <- (b64_idem s) at 1. apply b64_mono.
      pose proof (py_float_mono 1 j ltac:(lia)) as Hf. rewrite py_float_1 in Hf.
      pose proof (Qmult_le_compat_r 1 (py_float j) (b64 s) Hf Hb). lra.
    + destruct (Z.eqb_spec j 1) as [->|Hj1]; [lia|].
      apply b64_mono, Qmult_le_compat_r; [|exact Hb].
      apply py_float_mono. lia.
Qed.

Lemma reciprocal_nonzero d : d <> 0%Z -> reciprocal d = Num (step_for d).
Proof.
  intros Hd. unfold reciprocal. destruct (Z.eqb_spec d 0); [done | reflexivity].
Qed.

Lemma step_for_nonneg d : (1 <= d)%Z -> 0 <= step_for d.
Proof.
  intros Hd. apply b64_ge_0.
  apply Qle_shift_div_l.
  - apply b64_gt_0, inject_Z_pos. lia.
  - pose proof (py_float_nonneg 1 ltac:(lia)). lra.
Qed.

Lemma mini_beat_abs_idx_sorted n d : (1 <= d)%Z ->
  StronglySorted Qle (mini_beat_abs_idx n d).
Proof.
  intros Hd. unfold mini_beat_abs_idx, np_arange.
  rewrite reciprocal_nonzero by lia.
  apply SS_fmap_seq. intros i j Hij.
  apply arange_item_mono; [by apply step_for_nonneg | lia].
Qed.

(** *** Steps that are powers of two *)

Lemma pow2_neg k : pow2 (- k) == / pow2 k.
Proof. apply Qpower_opp. Qed.

Lemma py_float_pow2 k : (0 <= k)%Z -> py_float (2 ^ k) == pow2 k.
Proof.
  intros Hk. unfold py_float.
  assert (E : inject_Z (2 ^ k) == inject_Z 1 * pow2 k).
  { rewrite pow2_inject by done. change (inject_Z 1) with 1. ring. }
  rewrite E, (b64_dyadic 1 k) by (simpl; lia).
  change (inject_Z 1) with 1. ring.
Qed.

Lemma step_for_pow2 k : (0 <= k)%Z -> step_for (2 ^ k) == pow2 (- k).
Proof.
  intros Hk. unfold step_for.
  assert (E : py_float 1 / py_float (2 ^ k) == inject_Z 1 * pow2 (- k)).
  { rewrite py_float_1, py_float_pow2, pow2_neg by done. reflexivity. }
  rewrite E, (b64_dyadic 1 (- k)) by (simpl; lia).
  change (inject_Z 1) with 1. ring.
Qed.

Lemma arange_item_dyadic s k i :
  s == pow2 (- k) -> (0 <= i < 2 ^ 53)%Z ->
  arange_item 0 s i == inject_Z i * pow2 (- k).
Proof.
  intros Hs Hi. rewrite arange_item_norm.
  assert (Eb : b64 s == pow2 (- k)).
  { rewrite Hs, <- (Qmult_1_l (pow2 (- k))).
    apply (b64_dyadic 1 (- k)). simpl. lia. }
  destruct (Z.eqb_spec i 0) as [->|Hi0]; [ring|].
  destruct (Z.eqb_spec i 1) as [->|Hi1].
  - rewrite Eb. change (inject_Z 1) with 1. ring.
  - rewrite Eb, py_float_exact by lia. apply b64_dyadic. lia.
Qed.

Lemma arange_len_dyadic stop s k :
  s == pow2 (- k) -> (0 <= k)%Z -> (0 <= stop)%Z -> (stop * 2 ^ k < 2 ^ 53)%Z ->
  arange_len 0 stop (Num s) = (stop * 2 ^ k)%Z.
Proof.
  intros Hs Hk Hstop Hb. unfold arange_len. rewrite Z.sub_0_r.
  assert (Hp : (1 <= 2 ^ k)%Z) by (apply (Z.pow_le_mono_r 2 0 k); lia).
  assert (Hstop' : (Z.abs stop < 2 ^ 53)%Z) by nia.
  assert (E : b64 (py_float stop / s) == inject_Z (stop * 2 ^ k)).
  { rewrite <- (b64_Z (stop * 2 ^ k)) by lia. apply b64_comp.
    rewrite py_float_exact, Hs, inject_Z_mult, pow2_inject by lia.
    rewrite pow2_neg. field.
    pose proof (pow2_pos k). lra. }
  rewrite E. apply Qceiling_Z.
Qed.

(** *** Any number of divisions *)

Lemma step_for_bounds d : (1 <= d < 2 ^ 53)%Z ->
  0 < step_for d /\
  1 - pow2 (-53) <= inject_Z d * step_for d /\
  inject_Z d * step_for d <= 1 + pow2 (-53).
Proof.
  intros Hd.
  assert (Hdq : 0 < inject_Z d) by (apply inject_Z_pos; lia).
  assert (Hx : 0 < 1 / inject_Z d) by (apply Qdiv_pos; [reflexivity | exact Hdq]).
  assert (Es : step_for d == b64 (1 / inject_Z d)).
  { unfold step_for. apply b64_comp.
    rewrite py_float_1, py_float_exact by lia. reflexivity. }
  destruct (b64_rel_err _ Hx) as [Hlo Hhi].
  assert (E1 : inject_Z d * (1 / inject_Z d) == 1) by (field; lra).
  rewrite Es. split; [by apply b64_gt_0|].
  pose proof (Qmult_le_nonneg_l _ _ (inject_Z d) (Qlt_le_weak _ _ Hdq) Hlo) as H1.
  pose proof (Qmult_le_nonneg_l _ _ (inject_Z d) (Qlt_le_weak _ _ Hdq) Hhi) as H2.
  rewrite Qmult_assoc, E1 in H1, H2. lra.
Qed.

(** [np.arange] takes the expected number of samples, or one more. *)
Lemma arange_len_bounds (N : nat) d :
  (1 <= d)%Z -> ((Z.of_nat N + 1) * d < 2 ^ 52)%Z ->
  ((Z.of_nat N + 1) * d <= arange_len 0 (Z.of_nat N + 1) (Num (step_for d))
   <= (Z.of_nat N + 1) * d + 1)%Z.
Proof.
  intros Hd Hb.
  assert (Hd53 : (1 <= d < 2 ^ 53)%Z) by nia.
  destruct (step_for_bounds d Hd53) as (Hs & Hlo & Hhi).
  set (s := step_for d) in *. set (M := ((Z.of_nat N + 1) * d)%Z) in *.
  assert (HM : (1 <= M)%Z) by (unfold M; nia).
  unfold arange_len. rewrite Z.sub_0_r.
  set (q := py_float (Z.of_nat N + 1) / s).
  assert (Eq : q == inject_Z (Z.of_nat N + 1) / s).
  { unfold q. rewrite py_float_exact by nia. reflexivity. }
  assert (Hq0 : 0 <= q).
  { rewrite Eq. apply Qlt_le_weak, Qdiv_pos; [apply inject_Z_pos; lia | exact Hs]. }
  assert (Eqt : q * (inject_Z d * s) == inject_Z M).
  { rewrite Eq. unfold M. rewrite inject_Z_mult. field. lra. }
  pose proof (Qmult_le_nonneg_l _ _ q Hq0 Hlo) as H1.
  pose proof (Qmult_le_nonneg_l _ _ q Hq0 Hhi) as H2.
  rewrite Eqt in H1, H2.
  change (pow2 (-53)) with (1 # 9007199254740992) in H1, H2.
  assert (HMq : inject_Z M <= inject_Z 4503599627370495) by (rewrite <- Zle_Qle; lia).
  assert (HMq1 : inject_Z 1 <= inject_Z M) by (rewrite <- Zle_Qle; lia).
  change (inject_Z 4503599627370495) with 4503599627370495 in HMq.
  change (inject_Z 1) with 1 in HMq1.
  assert (Hqlo : inject_Z (2 * M - 1) * pow2 (-1) <= q).
  { rewrite inject_Z_minus, inject_Z_mult. change (pow2 (-1)) with (1 # 2).
    change (inject_Z 2) with 2. change (inject_Z 1) with 1. lra. }
  assert (Hqhi : q <= inject_Z (2 * M + 1) * pow2 (-1)).
  { rewrite inject_Z_plus, inject_Z_mult. change (pow2 (-1)) with (1 # 2).
    change (inject_Z 2) with 2. change (inject_Z 1) with 1. lra. }
  apply b64_mono in Hqlo, Hqhi.
  rewrite (b64_dyadic (2 * M - 1) (-1)) in Hqlo by lia.
  rewrite (b64_dyadic (2 * M + 1) (-1)) in Hqhi by lia.
  rewrite inject_Z_minus, inject_Z_mult in Hqlo.
  rewrite inject_Z_plus, inject_Z_mult in Hqhi.
  change (pow2 (-1)) with (1 # 2) in Hqlo, Hqhi.
  change (inject_Z 2) with 2 in Hqlo, Hqhi. change (inject_Z 1) with 1 in Hqlo, Hqhi.
  pose proof (Qle_ceiling (b64 q)) as Hc1.
  pose proof (Qceiling_lt (b64 q)) as Hc2.
  set (c := Qceiling (b64 q)) in *.
  split.
  - assert (Hlt : inject_Z (M - 1) < inject_Z c).
    { rewrite inject_Z_minus. change (inject_Z 1) with 1. lra. }
    rewrite <- Zlt_Qlt in Hlt. lia.
  - assert (Hlt : inject_Z (c - 1) < inject_Z (M + 1)).
    { rewrite inject_Z_plus. change (inject_Z 1) with 1. lra. }
    rewrite <- Zlt_Qlt in Hlt. lia.
Qed.

End GridTheory.

(** ** extract_mini_beat_from_beat_arr *)

Section ExtractTheory.

Lemma strictly_increasing_fmap_seq (g : nat -> Q) s n :
  (forall i, g i < g (S i)) -> strictly_increasing (g <$> seq s n).
Proof.
  intros Hg. revert s. induction n as [|n IH]; intros s; [done|].
  destruct n as [|n]; [done|].
  change (g s < g (S s) /\ strictly_increasing (g <$> seq (S s) (S n))).
  split; [apply Hg | apply IH].
Qed.

Lemma nth_fmap_seq (g : nat -> Q) n i : (i < n)%nat -> nth i (g <$> seq 0 n) 0 = g i.
Proof.
  intros Hi. apply nth_lookup_Some.
  rewrite list_lookup_fmap, lookup_seq_lt by done. done.
Qed.

Lemma length_beat_abs_idx b : length (beat_abs_idx b) = length b.
Proof. unfold beat_abs_idx. by rewrite length_fmap, length_seq. Qed.

Lemma beat_abs_idx_increasing b : strictly_increasing (beat_abs_idx b).
Proof.
  apply strictly_increasing_fmap_seq. intros i.
  rewrite <- Zlt_Qlt. lia.
Qed.

Lemma nth_beat_abs_idx b i : (i < length b)%nat ->
  nth i (beat_abs_idx b) 0 = inject_Z (Z.of_nat i + 1).
Proof. intros Hi. unfold beat_abs_idx. by rewrite nth_fmap_seq. Qed.

Lemma interp1d_beats b : (2 <= length b)%nat ->
  interp1d (beat_abs_idx b) b = Ok (interp1d_call (beat_abs_idx b) b).
Proof.
  intros H2. unfold interp1d. rewrite length_beat_abs_idx.
  rewrite Nat.eqb_refl. simpl.
  destruct (Nat.ltb_spec (length b) 2); [lia | done].
Qed.

(** What the function returns, once the interpolator is built. *)
Lemma extract_unfold b L n : (2 <= length b)%nat ->
  extract_mini_beat_from_beat_arr b L n =
  Ok (List.filter (fun t => Qle_bool t L)
        (List.filter (fun t => Qle_bool 0 t)
           (interp1d_call (beat_abs_idx b) b
              <$> mini_beat_abs_idx (length b) (divisions n)))).
Proof.
  intros H2. unfold extract_mini_beat_from_beat_arr.
  by rewrite interp1d_beats.
Qed.

Lemma same_array_fmap_seq (g : nat -> Q) s l :
  (forall i, (i < length l)%nat -> g (s + i)%nat == nth i l 0) ->
  same_array (g <$> seq s (length l)) l.
Proof.
  revert s. induction l as [|x l IH]; intros s Hg; [constructor|].
  simpl. constructor.
  - specialize (Hg 0%nat ltac:(simpl; lia)). simpl in Hg.
    by rewrite Nat.add_0_r in Hg.
  - apply IH. intros i Hi.
    specialize (Hg (S i) ltac:(simpl; lia)). simpl in Hg.
    by replace (S s + i)%nat with (s + S i)%nat by lia.
Qed.

Lemma same_array_fmap (f g : nat -> Q) l :
  (forall i, i ∈ l -> f i == g i) -> same_array (f <$> l) (g <$> l).
Proof.
  induction l as [|x l IH]; intros H; [constructor|].
  rewrite !fmap_cons. constructor.
  - apply H. left.
  - apply IH. intros i Hi. apply H. by right.
Qed.

Lemma same_array_trans a b c : same_array a b -> same_array b c -> same_array a c.
Proof.
  intros Hab. revert c. induction Hab as [|x y a b Hxy Hab IH]; intros c Hbc.
  - inversion Hbc. constructor.
  - inversion Hbc as [|y' z b' c' Hyz Hbc']; subst. constructor.
    + by rewrite Hxy.
    + by apply IH.
Qed.

Lemma same_array_refl a : same_array a a.
Proof. induction a; constructor; [reflexivity | assumption]. Qed.

Lemma List_filter_cons (p : Q -> bool) x l :
  List.filter p (x :: l) = if p x then x :: List.filter p l else List.filter p l.
Proof. reflexivity. Qed.

Lemma length_filter_fmap_seq (p : Q -> bool) (g : nat -> Q) t s n :
  (forall i, (s <= i < s + n)%nat -> (i < t)%nat -> p (g i) = false) ->
  (forall i, (s <= i < s + n)%nat -> (t <= i)%nat -> p (g i) = true) ->
  length (List.filter p (g <$> seq s n)) = (s + n - Nat.max s t)%nat.
Proof.
  revert s. induction n as [|n IH]; intros s Hlo Hhi; simpl; [lia|].
  destruct (le_lt_dec t s) as [Hts|Hst].
  - rewrite (Hhi s ltac:(lia) Hts). simpl. rewrite IH.
    + lia.
    + intros i Hi. apply Hlo. lia.
    + intros i Hi. apply Hhi. lia.
  - rewrite (Hlo s ltac:(lia) Hst). rewrite IH.
    + lia.
    + intros i Hi. apply Hlo. lia.
    + intros i Hi. apply Hhi. lia.
Qed.

(** The grid for [2 ^ k] divisions per beat: nothing is rounded. *)
Lemma mini_beat_abs_idx_pow2 (N : nat) k :
  (0 <= k)%Z -> ((Z.of_nat N + 1) * 2 ^ k < 2 ^ 53)%Z ->
  mini_beat_abs_idx N (2 ^ k) =
    (fun i => arange_item 0 (step_for (2 ^ k)) (Z.of_nat i))
      <$> seq 0 (Z.to_nat ((Z.of_nat N + 1) * 2 ^ k)).
Proof.
  intros Hk Hb.
  assert (Hp : (1 <= 2 ^ k)%Z) by (apply (Z.pow_le_mono_r 2 0 k); lia).
  unfold mini_beat_abs_idx, np_arange. rewrite reciprocal_nonzero by lia.
  by rewrite (arange_len_dyadic _ _ k (step_for_pow2 k Hk)) by lia.
Qed.

Lemma pow2_grid_item k i :
  (0 <= k)%Z -> (Z.of_nat i < 2 ^ 53)%Z ->
  arange_item 0 (step_for (2 ^ k)) (Z.of_nat i)
  == inject_Z (Z.of_nat i) / inject_Z (2 ^ k).
Proof.
  intros Hk Hi.
  rewrite (arange_item_dyadic _ k _ (step_for_pow2 k Hk)) by lia.
  rewrite pow2_neg, pow2_inject by done. reflexivity.
Qed.

End ExtractTheory.

(** ** The process pool *)

Section PoolTheory.

Lemma shutdown_wait_ge now fs f :
  In f fs -> (fut_done f <= shutdown_wait now fs)%nat.
Proof.
  induction fs as [|g fs IH]; simpl; [done|].
  intros [->|Hin]; [lia|]. specialize (IH Hin). lia.
Qed.

Lemma filter_none {A} (p : A -> bool) (l : list A) :
  (forall a, In a l -> p a = false) -> List.filter p l = [].
Proof.
  induction l as [|a l IH]; intros H; simpl; [done|].
  rewrite (H a) by (by left). apply IH. intros b Hb. apply H. by right.
Qed.

Lemma filter_every {A} (p : A -> bool) (l : list A) :
  (forall a, In a l -> p a = true) -> List.filter p l = l.
Proof.
  induction l as [|a l IH]; intros H; simpl; [done|].
  rewrite (H a) by (by left). f_equal. apply IH. intros b Hb. apply H. by right.
Qed.

(** Once the pool is shut down nothing is pending: [as_completed]
    yields every future, whatever the timeout. *)
Lemma as_completed_after_shutdown env fs timeout :
  as_completed env (shutdown_wait 0 fs) fs timeout = Ok (set_order env fs).
Proof.
  unfold as_completed. cbv zeta.
  rewrite (filter_every (fun f => (fut_done f <=? shutdown_wait 0 fs)%nat)).
  - rewrite (filter_none (fun f => negb (fut_done f <=? shutdown_wait 0 fs)%nat)).
    + simpl. by rewrite app_nil_r.
    + intros f Hf. apply negb_false_iff, Nat.leb_le, shutdown_wait_ge, Hf.
  - intros f Hf. apply Nat.leb_le, shutdown_wait_ge, Hf.
Qed.

(** Called while a task is still running, [as_completed] does raise:
    the timeout of the model is live. *)
Lemma as_completed_times_out env f timeout :
  (timeout < fut_done f)%nat ->
  as_completed env 0 [f] timeout = Raise TimeoutError.
Proof.
  intros H. unfold as_completed. simpl.
  destruct (fut_done f) as [|n] eqn:E; [lia|]. simpl.
  rewrite E. destruct (Nat.leb_spec (S n) timeout); [lia | done].
Qed.

Lemma collect_step queue done f :
  collect queue (done ++ [f]) =
  results ← collect queue done;
  func_name ← getitem queue (fut_id f);
  Ok (<[func_name := fut_result f]> results).
Proof. unfold collect. by rewrite foldl_app. Qed.

Lemma collect_never_times_out queue done :
  collect queue done <> Raise TimeoutError.
Proof.
  induction done as [|f done IH] using rev_ind; [done|].
  rewrite collect_step.
  destruct (collect queue done) as [results|e]; simpl; [|exact IH].
  unfold getitem. destruct (queue !! fut_id f); simpl; done.
Qed.

(** The three results end up under their names whatever the order the
    futures are visited in. *)
Lemma collect_three queue (f1 f2 f3 : future) done :
  queue = <[fut_id f3 := "beat"]>
            (<[fut_id f2 := "dbn_beat"]> (<[fut_id f1 := "dbn_down_beat"]> ∅)) ->
  fut_id f1 = 1%positive -> fut_id f2 = 2%positive -> fut_id f3 = 3%positive ->
  Permutation done [f1; f2; f3] ->
  exists results, collect queue done = Ok results /\
    results !! "dbn_down_beat" = Some (fut_result f1) /\
    results !! "dbn_beat" = Some (fut_result f2) /\
    results !! "beat" = Some (fut_result f3).
Proof.
  intros -> E1 E2 E3 Hp. rewrite E1, E2, E3.
  symmetry in Hp. apply permutations_Permutation in Hp.
  cbn in Hp. rewrite !elem_of_cons, elem_of_nil in Hp.
  unfold collect.
  destruct Hp as [->|[->|[->|[->|[->|[->|[]]]]]]]; simpl;
    unfold getitem; rewrite E1, E2, E3; simpl;
    (eexists; split; [reflexivity|]; by simplify_map_eq).
Qed.

End PoolTheory.

(** ** The store *)

Section StoreTheory.

Lemma alloc_spec v (h : Store.store) l h' :
  Store.alloc v h = (l, h') -> h !! l = None /\ h' = <[l := v]> h.
Proof.
  unfold Store.alloc. intros [= <- <-]. split; [|done].
  apply not_elem_of_dom, is_fresh.
Qed.

Lemma read_Some l (h : Store.store) v : h !! l = Some v -> Store.read l h = v.
Proof. unfold Store.read. by intros ->. Qed.

Lemma lookup_alloc_old v (h : Store.store) l k x :
  h !! l = None -> h !! k = Some x -> <[l := v]> h !! k = Some x.
Proof.
  intros Hl Hk. rewrite lookup_insert_ne; [done|]. congruence.
Qed.

(** On a store the function allocates, reads what it was given and
    what it allocated, and writes nowhere else: it returns a new array
    holding what the function on values computes, or raises what that
    raises, and every array of the store it started from is still
    there with its contents. *)
Lemma extract_on_store beat_arr audio_len_sec mini_beat_div_n (h : Store.store) a :
  h !! beat_arr = Some a ->
  match extract_mini_beat_from_beat_arr a audio_len_sec mini_beat_div_n with
  | Ok out =>
      exists l h',
        Store.extract_mini_beat_from_beat_arr beat_arr audio_len_sec mini_beat_div_n h
          = Ok (l, h') /\
        h' !! l = Some out /\ h !! l = None /\ h ⊆ h'
  | Raise e =>
      Store.extract_mini_beat_from_beat_arr beat_arr audio_len_sec mini_beat_div_n h
        = Raise e
  end.
Proof.
  intros Ha.
  unfold Store.extract_mini_beat_from_beat_arr, extract_mini_beat_from_beat_arr.
  cbv zeta.
  rewrite (read_Some _ _ _ Ha).
  destruct (Store.alloc a h) as [l1 h1] eqn:E1. apply alloc_spec in E1 as [N1 ->].
  pose proof (lookup_alloc_old a h l1 beat_arr a N1 Ha) as Ha1.
  pose proof (lookup_insert_eq h l1 a) as Hl1.
  rewrite (read_Some _ _ _ Ha1).
  destruct (Store.alloc (beat_abs_idx a) (<[l1:=a]> h)) as [l2 h2] eqn:E2.
  apply alloc_spec in E2 as [N2 ->].
  pose proof (lookup_alloc_old (beat_abs_idx a) _ l2 beat_arr a N2 Ha1) as Ha2.
  pose proof (lookup_alloc_old (beat_abs_idx a) _ l2 l1 a N2 Hl1) as Hl12.
  pose proof (lookup_insert_eq (<[l1:=a]> h) l2 (beat_abs_idx a)) as Hl2.
  rewrite (read_Some _ _ _ Hl2), (read_Some _ _ _ Hl12), (read_Some _ _ _ Ha2).
  destruct (interp1d (beat_abs_idx a) a) as [beat_map_func|e]; [|done].
  cbn [mbind result_bind].
  match goal with |- context [Store.alloc ?v ?s] =>
    destruct (Store.alloc v s) as [l3 h3] eqn:E3; apply alloc_spec in E3 as [N3 ->] end.
  match goal with |- context [Store.read l3 ?s] =>
    rewrite (read_Some l3 s _ (lookup_insert_eq _ l3 _)) end.
  match goal with |- context [Store.alloc ?v ?s] =>
    destruct (Store.alloc v s) as [l4 h4] eqn:E4; apply alloc_spec in E4 as [N4 ->] end.
  match goal with |- context [Store.read l4 ?s] =>
    rewrite (read_Some l4 s _ (lookup_insert_eq _ l4 _)) end.
  match goal with |- context [Store.alloc ?v ?s] =>
    destruct (Store.alloc v s) as [l5 h5] eqn:E5; apply alloc_spec in E5 as [N5 ->] end.
  eexists _, _. split; [reflexivity|]. split; [apply lookup_insert_eq|]. split.
  - pose proof N5 as N5'. rewrite !lookup_insert_None in N5'.
    by destruct N5' as [[[[N0 _] _] _] _].
  - etrans; [|apply insert_subseteq; exact N5].
    etrans; [|apply insert_subseteq; exact N4].
    etrans; [|apply insert_subseteq; exact N3].
    etrans; [|apply insert_subseteq; exact N2].
    by apply insert_subseteq.
Qed.

End StoreTheory.

(** * The claims *)

(** ** Tempo estimate of one beat array *)

Section TempoClaims.

(** C1, as stated, fails.  Five beats [0, 1, 2, 3, 13] give the sorted
    intervals [1, 1, 1, 10].  The code slices them with indices taken
    from the number of beats (5): positions 1 to 4, that is [1, 1, 10],
    tempo 15.  With the indices taken from the number of intervals (4)
    the middle 60% would be [1, 1, 1], tempo 60, and dropping a fifth
    of the intervals at each end would keep all four. *)
Lemma C1_trim_counts_beats_not_intervals :
  let beats := [0; 1; 2; 3; 13] in
  strictly_increasing beats /\ (2 <= length beats)%nat /\
  pred_bpm beats = Num (180 # 12) /\
  ~ same_float (pred_bpm beats) (tempo_estimate_spec middle_60_percent beats) /\
  ~ same_float (pred_bpm beats) (tempo_estimate_spec trim_both_tails beats).
Proof.
  repeat split; try (vm_compute; congruence).
  - simpl. lia.
Qed.

(** C1, amended: the tempo estimate is 60 over the mean of the sorted
    intervals from position [n // 5] up to position [4 * n // 5], where
    [n] is the number of BEATS, one more than the number of intervals;
    that slice is never empty. *)
Theorem tempo_estimate_trims_by_beat_count beats :
  strictly_increasing beats ->
  (2 <= length beats)%nat -> (Z.of_nat (length beats) < 2 ^ 50)%Z ->
  let n := Z.of_nat (length beats) in
  let kept := py_slice (np_sort (np_diff beats)) (n / 5) (4 * n / 5) in
  trimmed_intervals beats = kept /\
  kept <> [] /\
  pred_bpm beats = Num (60 / (Qsum kept / inject_Z (Z.of_nat (length kept)))).
Proof.
  intros Hs H2 Hn n kept.
  pose proof (trimmed_intervals_unfold beats Hn) as Hk. fold n in Hk. fold kept in Hk.
  pose proof (trimmed_intervals_length beats H2 Hn) as Hl.
  pose proof (trimmed_intervals_pos beats Hs) as Hp.
  assert (Hne : trimmed_intervals beats <> []).
  { intros E. rewrite E in Hl. simpl in Hl. lia. }
  split; [exact Hk|]. rewrite <- Hk. split; [exact Hne|].
  by apply pred_bpm_of_mean.
Qed.

Lemma tempo_estimate_trims_by_beat_count_witness :
  let beats := [0; 1; 2; 3; 13] in
  let kept := py_slice (np_sort (np_diff beats)) (5 / 5) (4 * 5 / 5) in
  trimmed_intervals beats = kept /\
  kept <> [] /\
  pred_bpm beats = Num (60 / (Qsum kept / inject_Z (Z.of_nat (length kept)))).
Proof.
  apply (tempo_estimate_trims_by_beat_count [0; 1; 2; 3; 13]).
  - simpl. repeat split.
  - simpl. lia.
  - simpl. lia.
Defined.



End TempoClaims.

(** ** Subdivisions per beat *)

Section DivisionClaims.




End DivisionClaims.

(** ** The mini-beat grid *)

Section MiniBeatClaims.






End MiniBeatClaims.

Section GridClaims.




End GridClaims.

(** ** The ensemble *)

Section ProcessClaims.

Context {audio : Type} `{!Madmom audio}.

Lemma first_pass_parallel_eq self env (audio_data : audio) :
  iterates_each_once env -> (0 < parallel_workers self)%Z ->
  first_pass_parallel self env audio_data = first_pass_sequential self audio_data.
Proof.
  intros Hord Hw. unfold first_pass_parallel.
  destruct (Z.ltb_spec (parallel_workers self) 0) as [Hneg|_]; [lia|].
  cbv zeta. rewrite as_completed_after_shutdown.
  set (f1 := submit env 1 (_get_dbn_down_beat self audio_data (Num 50) (Num 230))).
  set (f2 := submit env 2 (_get_dbn_beat self audio_data)).
  set (f3 := submit env 3 (_get_beat self audio_data)).
  destruct (collect_three _ f1 f2 f3 _ eq_refl eq_refl eq_refl eq_refl (Hord [f1; f2; f3]))
    as (results & Hc & H1 & H2 & H3).
  cbn [mbind result_bind]. rewrite Hc.
  cbn [mbind result_bind]. unfold getitem.
  rewrite H1. cbn [mbind result_bind].
  rewrite H2. cbn [mbind result_bind].
  rewrite H3. reflexivity.
Qed.

Lemma process_sequential self env (audio_data : audio) :
  process (sequential self) env audio_data =
  Ok (_get_dbn_down_beat self audio_data
        (Np.div (consensus (_get_dbn_down_beat self audio_data (Num 50) (Num 230))
                           (_get_dbn_beat self audio_data)
                           (_get_beat self audio_data)) (Num lit_1_38))
        (Np.mul (consensus (_get_dbn_down_beat self audio_data (Num 50) (Num 230))
                           (_get_dbn_beat self audio_data)
                           (_get_beat self audio_data)) (Num lit_1_38))).
Proof. reflexivity. Qed.

Lemma process_parallel self env (audio_data : audio) :
  iterates_each_once env -> (0 < parallel_workers self)%Z ->
  process self env audio_data = process (sequential self) env audio_data.
Proof.
  intros Hord Hw. rewrite process_sequential. unfold process.
  destruct (Z.eqb_spec (parallel_workers self) 0) as [E|_]; [lia|].
  by rewrite first_pass_parallel_eq.
Qed.

Lemma process_never_times_out self env (audio_data : audio) :
  process self env audio_data <> Raise TimeoutError.
Proof.
  unfold process.
  destruct (parallel_workers self =? 0)%Z; [done|].
  unfold first_pass_parallel.
  destruct (parallel_workers self <? 0)%Z; [done|].
  cbv zeta. rewrite as_completed_after_shutdown. simpl.
  match goal with |- context [collect ?q ?d] =>
    pose proof (collect_never_times_out q d) as Hc;
    destruct (collect q d) as [results|e] end; simpl; [|congruence].
  unfold getitem.
  repeat match goal with |- context [?m !! ?k] => destruct (m !! k); simpl end; done.
Qed.

(** C5: the consensus is the unweighted mean of the three first-pass
    tempi, the downbeat tracker is run again between consensus/1.38
    and consensus*1.38, and what it returns is returned. *)
Theorem process_is_second_pass_around_consensus self env (audio_data : audio) :
  iterates_each_once env -> (0 <= parallel_workers self)%Z ->
  let pred_bpm1 := pred_bpm (_get_dbn_down_beat self audio_data (Num 50) (Num 230)) in
  let pred_bpm2 := pred_bpm (_get_dbn_beat self audio_data) in
  let pred_bpm3 := pred_bpm (_get_beat self audio_data) in
  let pred_bpm_avg := np_mean [pred_bpm1; pred_bpm2; pred_bpm3] in
  process self env audio_data =
    Ok (_get_dbn_down_beat self audio_data
          (Np.div pred_bpm_avg (Num lit_1_38))
          (Np.mul pred_bpm_avg (Num lit_1_38))) /\
  (forall q1 q2 q3,
      pred_bpm1 = Num q1 -> pred_bpm2 = Num q2 -> pred_bpm3 = Num q3 ->
      same_float pred_bpm_avg (Num ((q1 + q2 + q3) / 3))).
Proof.
  intros Hord Hw. cbv zeta. split.
  - destruct (Z.eq_dec (parallel_workers self) 0%Z) as [E|NE].
    + unfold process. rewrite E. reflexivity.
    + rewrite process_parallel by (done || lia). apply process_sequential.
  - intros q1 q2 q3 -> -> ->. unfold np_mean, np_sum. simpl. field.
Qed.

(** C7: with deterministic estimators the process-pool branch returns
    what the sequential branch returns: the same three arrays after
    the first pass and the same final beat array. *)
Theorem parallel_equals_sequential self env (audio_data : audio) :
  iterates_each_once env -> (0 < parallel_workers self)%Z ->
  first_pass_parallel self env audio_data
    = first_pass_sequential (sequential self) audio_data /\
  process self env audio_data = process (sequential self) env audio_data.
Proof.
  intros Hord Hw. split.
  - by rewrite first_pass_parallel_eq.
  - by apply process_parallel.
Qed.

End ProcessClaims.

Section ProcessExamples.

Lemma slow_run_iterates_each_once : iterates_each_once slow_run.
Proof. intros fs. symmetry. apply Permutation_rev. Qed.

Lemma process_is_second_pass_around_consensus_witness :
  let self := default_tracker in
  let pred_bpm1 := pred_bpm (@_get_dbn_down_beat unit metronome self tt (Num 50) (Num 230)) in
  let pred_bpm2 := pred_bpm (@_get_dbn_beat unit metronome self tt) in
  let pred_bpm3 := pred_bpm (@_get_beat unit metronome self tt) in
  let pred_bpm_avg := np_mean [pred_bpm1; pred_bpm2; pred_bpm3] in
  @process unit metronome self slow_run tt =
    Ok (@_get_dbn_down_beat unit metronome self tt
          (Np.div pred_bpm_avg (Num lit_1_38))
          (Np.mul pred_bpm_avg (Num lit_1_38))) /\
  (forall q1 q2 q3,
      pred_bpm1 = Num q1 -> pred_bpm2 = Num q2 -> pred_bpm3 = Num q3 ->
      same_float pred_bpm_avg (Num ((q1 + q2 + q3) / 3))).
Proof.
  apply (@process_is_second_pass_around_consensus unit metronome default_tracker slow_run tt).
  - exact slow_run_iterates_each_once.
  - simpl. lia.
Defined.

Lemma parallel_equals_sequential_witness :
  @first_pass_parallel unit metronome default_tracker slow_run tt
    = @first_pass_sequential unit metronome (sequential default_tracker) tt /\
  @process unit metronome default_tracker slow_run tt
    = @process unit metronome (sequential default_tracker) slow_run tt.
Proof.
  apply (@parallel_equals_sequential unit metronome default_tracker slow_run tt).
  - exact slow_run_iterates_each_once.
  - simpl. lia.
Defined.

(** C8 does not hold of the code.  In [slow_run] the first job ends
    700 seconds after it was submitted.  [process] waits for it when
    it leaves the [with] block, finds every future done when it
    reaches [as_completed(queue, timeout=600)], and returns the beat
    track; asked while the job was still running, [as_completed]
    would have raised TimeoutError. *)
Theorem process_waits_beyond_600_seconds :
  finish slow_run 1 = 700%nat /\
  @process unit metronome default_tracker slow_run tt
    = Ok [1 # 2; 1; 3 # 2; 2; 5 # 2] /\
  as_completed slow_run 0
    [submit slow_run 1 (@_get_dbn_down_beat unit metronome default_tracker tt (Num 50) (Num 230))]
    600 = Raise TimeoutError.
Proof.
  split; [reflexivity|]. split.
  - rewrite (@process_parallel unit metronome default_tracker slow_run tt
               slow_run_iterates_each_once ltac:(simpl; lia)).
    reflexivity.
  - apply as_completed_times_out. simpl. lia.
Qed.

End ProcessExamples.

(** ** Purity *)

Section PurityClaims.

(** C10: called twice on the same beat array, audio length and
    [mini_beat_div_n], the function returns arrays with the same
    contents (or raises the same exception), whatever else the store
    holds: the contents are those computed from the three arguments
    alone.  Each call only adds arrays to the store, so the beat array
    it was given, and the first result, are as they were. *)
Theorem extract_twice_same_output beat_arr audio_len_sec mini_beat_div_n
    (h : Store.store) a :
  h !! beat_arr = Some a ->
  match extract_mini_beat_from_beat_arr a audio_len_sec mini_beat_div_n with
  | Ok out =>
      exists r1 h1 r2 h2,
        Store.extract_mini_beat_from_beat_arr beat_arr audio_len_sec mini_beat_div_n h
          = Ok (r1, h1) /\
        Store.extract_mini_beat_from_beat_arr beat_arr audio_len_sec mini_beat_div_n h1
          = Ok (r2, h2) /\
        h1 !! r1 = Some out /\ h2 !! r2 = Some out /\ h2 !! r1 = Some out /\
        h ⊆ h1 /\ h1 ⊆ h2 /\
        h1 !! beat_arr = Some a /\ h2 !! beat_arr = Some a
  | Raise e =>
      forall h' : Store.store, h' !! beat_arr = Some a ->
        Store.extract_mini_beat_from_beat_arr beat_arr audio_len_sec mini_beat_div_n h'
          = Raise e
  end.
Proof.
  intros Ha.
  pose proof (extract_on_store beat_arr audio_len_sec mini_beat_div_n h a Ha) as H1.
  destruct (extract_mini_beat_from_beat_arr a audio_len_sec mini_beat_div_n)
    as [out|e] eqn:E.
  - destruct H1 as (r1 & h1 & Hr1 & Ho1 & _ & Hs1).
    pose proof (lookup_weaken _ _ _ _ Ha Hs1) as Ha1.
    pose proof (extract_on_store beat_arr audio_len_sec mini_beat_div_n h1 a Ha1) as H2.
    rewrite E in H2. destruct H2 as (r2 & h2 & Hr2 & Ho2 & _ & Hs2).
    exists r1, h1, r2, h2. repeat split; try done.
    + exact (lookup_weaken _ _ _ _ Ho1 Hs2).
    + exact (lookup_weaken _ _ _ _ Ha1 Hs2).
  - intros h' Ha'.
    pose proof (extract_on_store beat_arr audio_len_sec mini_beat_div_n h' a Ha') as H2.
    by rewrite E in H2.
Qed.

Lemma extract_twice_same_output_witness :
  let h : Store.store := {[ 7%positive := [1; 2; 3; 4] ]} in
  h !! 7%positive = Some [1; 2; 3; 4] /\
  match extract_mini_beat_from_beat_arr [1; 2; 3; 4] 4 8 with
  | Ok out =>
      exists r1 h1 r2 h2,
        Store.extract_mini_beat_from_beat_arr 7 4 8 h = Ok (r1, h1) /\
        Store.extract_mini_beat_from_beat_arr 7 4 8 h1 = Ok (r2, h2) /\
        h1 !! r1 = Some out /\ h2 !! r2 = Some out /\ h2 !! r1 = Some out /\
        h ⊆ h1 /\ h1 ⊆ h2 /\
        h1 !! 7%positive = Some [1; 2; 3; 4] /\
        h2 !! 7%positive = Some [1; 2; 3; 4]
  | Raise e =>
      forall h' : Store.store, h' !! 7%positive = Some [1; 2; 3; 4] ->
        Store.extract_mini_beat_from_beat_arr 7 4 8 h' = Raise e
  end.
Proof.
  intros h. split; [reflexivity|].
  apply (extract_twice_same_output 7 4 8 h [1; 2; 3; 4]). reflexivity.
Defined.

End PurityClaims.

(** ** More on the tempo estimate *)

Section TempoTheory.

Lemma insert_sorted_same x x' l l' :
  x == x' -> same_array l l' ->
  same_array (insert_sorted x l) (insert_sorted x' l').
Proof.
  intros Hx Hl. induction Hl as [|y y' l l' Hy Hl IH]; simpl.
  - by constructor.
  - rewrite (Qleb_comp _ _ Hx _ _ Hy).
    destruct (Qle_bool x' y'); constructor; try done. by constructor.
Qed.

Lemma np_sort_same a b : same_array a b -> same_array (np_sort a) (np_sort b).
Proof.
  induction 1 as [|x y a b Hxy Hab IH]; simpl; [constructor|].
  by apply insert_sorted_same.
Qed.

Lemma py_slice_same a b lo hi :
  same_array a b -> same_array (py_slice a lo hi) (py_slice b lo hi).
Proof. intros H. unfold py_slice. by apply Forall2_take, Forall2_drop. Qed.

Lemma Qsum_same a b : same_array a b -> Qsum a == Qsum b.
Proof.
  induction 1 as [|x y a b Hxy Hab IH]; simpl; [reflexivity|].
  by rewrite Hxy, IH.
Qed.

Lemma Qltb_comp x x' y y' : x == x' -> y == y' -> Qltb x y = Qltb x' y'.
Proof. intros Hx Hy. unfold Qltb. by rewrite (Qleb_comp _ _ Hy _ _ Hx). Qed.

Lemma Qeqb_comp' x x' y y' : x == x' -> y == y' -> Qeqb x y = Qeqb x' y'.
Proof. intros Hx Hy. unfold Qeqb. by rewrite (Qeqb_comp _ _ Hx _ _ Hy). Qed.

Lemma same_float_refl a : same_float a a.
Proof. destruct a; simpl; done. Qed.

(** Division does not tell equal fractions apart. *)
Lemma Np_div_same a a' b b' :
  same_float a a' -> same_float b b' -> same_float (Np.div a b) (Np.div a' b').
Proof.
  destruct a as [x|s|], a' as [x'|s'|], b as [y|t|], b' as [y'|t'|];
    simpl; try done.
  - intros Hx Hy.
    rewrite (Qeqb_comp' y y' 0 0 Hy (Qeq_refl 0)),
            (Qeqb_comp' x x' 0 0 Hx (Qeq_refl 0)),
            (Qltb_comp x x' 0 0 Hx (Qeq_refl 0)).
    destruct (Qeqb y' 0) eqn:Ey.
    + destruct (Qeqb x' 0); simpl; done.
    + simpl. rewrite Hx, Hy. reflexivity.
  - intros -> Hy. by rewrite (Qltb_comp y y' 0 0 Hy (Qeq_refl 0)).
Qed.

Lemma np_mean_same a b :
  same_array a b -> same_float (np_mean (Num <$> a)) (np_mean (Num <$> b)).
Proof.
  intros H. unfold np_mean. rewrite !np_sum_Num, !length_fmap.
  rewrite (Forall2_length _ _ _ H).
  apply Np_div_same; simpl; [by apply Qsum_same | reflexivity].
Qed.

(** The estimate depends on the beats through their number and their
    intervals only. *)
Lemma pred_bpm_same_diffs a b :
  length a = length b -> same_array (np_diff a) (np_diff b) ->
  same_float (pred_bpm a) (pred_bpm b).
Proof.
  intros Hl Hd. unfold pred_bpm, pred_beat_len, trimmed_intervals.
  rewrite Hl. apply Np_div_same; [reflexivity|].
  by apply np_mean_same, py_slice_same, np_sort_same.
Qed.

Lemma np_diff_nil : np_diff [] = [].
Proof. reflexivity. Qed.

Lemma np_diff_one x : np_diff [x] = [].
Proof. reflexivity. Qed.

Lemma np_diff_fmap (f : Q -> Q) (g : Q -> Q) a :
  (forall x y, f y - f x == g (y - x)) ->
  same_array (np_diff (f <$> a)) (g <$> np_diff a).
Proof.
  intros Hf. induction a as [|x a IH]; [constructor|].
  destruct a as [|y r]; [constructor|].
  rewrite !fmap_cons, !np_diff_cons, fmap_cons.
  constructor; [apply Hf | exact IH].
Qed.

Lemma fmap_id_same (g : Q -> Q) a : (forall x, g x == x) -> same_array (g <$> a) a.
Proof.
  intros Hg. induction a as [|x a IH]; [constructor|].
  rewrite fmap_cons. by constructor.
Qed.

(** Sorting commutes with a map that keeps the order. *)
Lemma insert_sorted_fmap (g : Q -> Q) x l :
  (forall u v, Qle_bool (g u) (g v) = Qle_bool u v) ->
  insert_sorted (g x) (g <$> l) = g <$> insert_sorted x l.
Proof.
  intros Hg. induction l as [|y l IH]; [done|].
  rewrite fmap_cons. simpl. rewrite Hg.
  destruct (Qle_bool x y); [done|].
  by rewrite fmap_cons, IH.
Qed.

Lemma np_sort_fmap (g : Q -> Q) l :
  (forall u v, Qle_bool (g u) (g v) = Qle_bool u v) ->
  np_sort (g <$> l) = g <$> np_sort l.
Proof.
  intros Hg. induction l as [|y l IH]; [done|].
  rewrite fmap_cons.
  change (insert_sorted (g y) (np_sort (g <$> l)) = g <$> insert_sorted y (np_sort l)).
  rewrite IH. by apply insert_sorted_fmap.
Qed.

Lemma py_slice_fmap (g : Q -> Q) l lo hi :
  py_slice (g <$> l) lo hi = g <$> py_slice l lo hi.
Proof. unfold py_slice. by rewrite fmap_take, fmap_drop. Qed.

Lemma Qsum_scale c l : Qsum ((fun d => c * d) <$> l) == c * Qsum l.
Proof.
  induction l as [|x l IH].
  - change (0 == c * 0). ring.
  - rewrite fmap_cons.
    change (c * x + Qsum ((fun d => c * d) <$> l) == c * (x + Qsum l)).
    rewrite IH. ring.
Qed.

Lemma Qle_bool_scale c u v : 0 < c -> Qle_bool (c * u) (c * v) = Qle_bool u v.
Proof.
  intros Hc. destruct (Qle_bool u v) eqn:E.
  - apply Qle_bool_iff. apply Qle_bool_iff in E.
    apply Qmult_le_nonneg_l; [by apply Qlt_le_weak | exact E].
  - destruct (Qle_bool (c * u) (c * v)) eqn:E'; [|done].
    apply Qle_bool_iff in E'.
    assert (Hle : u <= v) by nra.
    apply Qle_bool_iff in Hle. congruence.
Qed.

(** Bounds of a mean. *)
Lemma Qsum_bounds lo hi l :
  Forall (fun d => lo <= d /\ d <= hi) l ->
  lo * inject_Z (Z.of_nat (length l)) <= Qsum l /\
  Qsum l <= hi * inject_Z (Z.of_nat (length l)).
Proof.
  induction 1 as [|x l [Hlo Hhi] Hl [IHlo IHhi]].
  - change (lo * 0 <= 0 /\ 0 <= hi * 0). lra.
  - change (Qsum (x :: l)) with (x + Qsum l).
    change (length (x :: l)) with (S (length l)).
    rewrite Nat2Z.inj_succ. unfold Z.succ. rewrite inject_Z_plus.
    change (inject_Z 1) with 1. lra.
Qed.

Lemma mean_bounds lo hi l :
  l <> [] -> Forall (fun d => lo <= d /\ d <= hi) l ->
  lo <= Qsum l / inject_Z (Z.of_nat (length l)) /\
  Qsum l / inject_Z (Z.of_nat (length l)) <= hi.
Proof.
  intros Hne Hl. destruct (Qsum_bounds lo hi l Hl) as [H1 H2].
  pose proof (length_Q_pos l Hne) as Hn. split.
  - apply Qle_shift_div_l; assumption.
  - apply Qle_shift_div_r; assumption.
Qed.

Lemma Qdiv_le_antimono c a b : 0 <= c -> 0 < a -> a <= b -> c / b <= c / a.
Proof.
  intros Hc Ha Hab.
  assert (Hb : 0 < b) by lra.
  apply Qle_shift_div_l; [exact Ha|].
  assert (E : c / b * a == c * a / b) by (field; lra).
  rewrite E. apply Qle_shift_div_r; [exact Hb|].
  apply Qmult_le_nonneg_l; assumption.
Qed.

Lemma trimmed_intervals_bounds (P : Q -> Prop) beats :
  Forall P (np_diff beats) -> Forall P (trimmed_intervals beats).
Proof. intros H. unfold trimmed_intervals. by apply Forall_py_slice, Forall_np_sort. Qed.

Lemma trimmed_intervals_ne beats :
  (2 <= length beats)%nat -> (Z.of_nat (length beats) < 2 ^ 50)%Z ->
  trimmed_intervals beats <> [].
Proof.
  intros H2 Hn E. pose proof (trimmed_intervals_length beats H2 Hn) as Hl.
  rewrite E in Hl. simpl in Hl. lia.
Qed.

(** With fewer than two beats there is no interval to average. *)
Lemma pred_bpm_degenerate beats : (length beats < 2)%nat -> pred_bpm beats = NaN.
Proof.
  intros Hl. unfold pred_bpm, pred_beat_len, trimmed_intervals.
  assert (E : np_diff beats = []).
  { destruct beats as [|x [|y r]]; [done | done | simpl in Hl; lia]. }
  rewrite E. unfold py_slice. simpl. by rewrite drop_nil, take_nil.
Qed.

Lemma np_sum_nan l : NaN ∈ l -> np_sum l = NaN.
Proof.
  induction l as [|x l IH]; intros H.
  - by apply elem_of_nil in H.
  - change (Np.add x (np_sum l) = NaN).
    apply elem_of_cons in H as [<-|H]; [done|].
    rewrite IH by done. by destruct x.
Qed.

Lemma consensus_nan b1 b2 b3 :
  (length b1 < 2 \/ length b2 < 2 \/ length b3 < 2)%nat -> consensus b1 b2 b3 = NaN.
Proof.
  intros H. unfold consensus, np_mean. rewrite np_sum_nan; [done|].
  destruct H as [H|[H|H]]; rewrite (pred_bpm_degenerate _ H).
  - left.
  - right. left.
  - right. right. left.
Qed.

(** The estimate on a regular array of beats. *)
Lemma pred_bpm_pos beats :
  strictly_increasing beats -> (2 <= length beats)%nat ->
  (Z.of_nat (length beats) < 2 ^ 50)%Z ->
  exists q, pred_bpm beats = Num q /\ 0 < q.
Proof.
  intros Hs H2 Hn.
  pose proof (trimmed_intervals_ne beats H2 Hn) as Hne.
  pose proof (trimmed_intervals_pos beats Hs) as Hpos.
  eexists. split; [by apply pred_bpm_of_mean|].
  apply Qdiv_pos; [reflexivity|].
  apply Qdiv_pos; [by apply Qsum_pos | by apply length_Q_pos].
Qed.

(** *** Stretching time *)

Lemma Qeqb_scale c m : 0 < c -> Qeqb (c * m) 0 = Qeqb m 0.
Proof.
  intros Hc. unfold Qeqb. destruct (Qeq_bool m 0) eqn:E.
  - apply Qeq_bool_iff. apply Qeq_bool_iff in E. rewrite E. ring.
  - destruct (Qeq_bool (c * m) 0) eqn:E'; [|done].
    apply Qeq_bool_iff in E'. assert (H : m == 0) by nra.
    apply Qeq_bool_iff in H. congruence.
Qed.

Lemma Qeqb_pos c : 0 < c -> Qeqb c 0 = false.
Proof. intros Hc. apply Qeqb_false. intros E. rewrite E in Hc. discriminate. Qed.

Lemma Qltb_pos c : 0 < c -> Qltb c 0 = false.
Proof. intros Hc. apply Qltb_ge. by apply Qlt_le_weak. Qed.

Lemma Qltb_scale c m : 0 < c -> Qltb (c * m) 0 = Qltb m 0.
Proof.
  intros Hc. unfold Qltb. f_equal.
  rewrite <- (Qle_bool_scale c 0 m Hc).
  apply Qleb_comp; [ring | reflexivity].
Qed.

Lemma mean_scale c S n :
  0 < c ->
  same_float (Np.div (Num (c * S)) (Num n)) (Np.mul (Num c) (Np.div (Num S) (Num n))).
Proof.
  intros Hc. simpl.
  rewrite (Qeqb_scale c S Hc), (Qltb_scale c S Hc).
  destruct (Qeqb n 0) eqn:En.
  - destruct (Qeqb S 0); simpl; [done|].
    rewrite (Qeqb_pos c Hc), (Qltb_pos c Hc). by destruct (Qltb S 0).
  - simpl. field. intros E. apply Qeq_bool_iff in E. unfold Qeqb in En. congruence.
Qed.

Lemma tempo_of_scaled_mean c M :
  0 < c ->
  same_float (Np.div (Num 60) (Np.mul (Num c) M))
             (Np.div (Np.div (Num 60) M) (Num c)).
Proof.
  intros Hc.
  pose proof (Qeqb_pos c Hc) as Hc0. pose proof (Qltb_pos c Hc) as Hcn.
  destruct M as [m|s|]; [| |done].
  - simpl. rewrite (Qeqb_scale c m Hc).
    destruct (Qeqb m 0) eqn:Em; simpl.
    + by rewrite Hcn.
    + rewrite Hc0. simpl.
      assert (Hcne : ~ c == 0) by (intros E; rewrite E in Hc; discriminate).
      assert (Hmne : ~ m == 0).
      { intros E. apply Qeq_bool_iff in E. unfold Qeqb in Em. congruence. }
      field. by split.
  - simpl. rewrite Hc0. simpl. reflexivity.
Qed.

Lemma same_float_trans a b c : same_float a b -> same_float b c -> same_float a c.
Proof.
  destruct a, b, c; simpl; try done; try congruence.
  intros H1 H2. by rewrite H1.
Qed.

End TempoTheory.

(** ** The longest interval and the trimmed mean *)

Section OutlierTheory.

Lemma np_diff_app pre post :
  pre <> [] -> post <> [] ->
  np_diff (pre ++ post)
  = np_diff pre ++ (List.hd 0 post - List.last pre 0) :: np_diff post.
Proof.
  intros Hpre Hpost. destruct post as [|p post]; [done|]. clear Hpost.
  induction pre as [|a pre IH]; [done|]. clear Hpre.
  destruct pre as [|a' pre].
  - change ([a] ++ p :: post) with (a :: p :: post). by rewrite np_diff_cons.
  - change ((a :: a' :: pre) ++ p :: post) with (a :: a' :: (pre ++ p :: post)).
    rewrite !np_diff_cons.
    change (a' :: pre ++ p :: post) with ((a' :: pre) ++ p :: post).
    rewrite IH by done. reflexivity.
Qed.

Lemma insert_sorted_SS x s :
  StronglySorted Qle s -> StronglySorted Qle (insert_sorted x s).
Proof.
  induction 1 as [|y s Hss IH Hall]; simpl.
  - repeat constructor.
  - destruct (Qle_bool x y) eqn:E.
    + apply Qle_bool_iff in E. constructor; [by constructor|].
      constructor; [exact E|].
      eapply List.Forall_impl; [|exact Hall]. intros z Hz. simpl in *. lra.
    + constructor; [exact IH|].
      apply Forall_insert_sorted; [|exact Hall].
      assert (Hlt : Qltb y x = true) by (unfold Qltb; by rewrite E).
      apply Qltb_lt in Hlt. lra.
Qed.

Lemma np_sort_SS l : StronglySorted Qle (np_sort l).
Proof.
  induction l as [|x l IH]; [constructor|]. by apply insert_sorted_SS.
Qed.

Lemma same_array_all_eq x a b :
  length a = length b ->
  Forall (fun z => z == x) a -> Forall (fun z => z == x) b -> same_array a b.
Proof.
  intros Hl Ha. revert b Hl. induction Ha as [|y a Hy Ha IH]; intros b Hl Hb.
  - destruct b; [constructor | done].
  - destruct b as [|z b]; [done|].
    apply List.Forall_cons_iff in Hb as [Hz Hb].
    constructor; [by rewrite Hy, Hz | apply IH; [by injection Hl | exact Hb]].
Qed.

(** An element that is not below any other goes to the end. *)
Lemma insert_sorted_max x s :
  StronglySorted Qle s -> Forall (fun z => z <= x) s ->
  same_array (insert_sorted x s) (s ++ [x]).
Proof.
  induction 1 as [|y s Hss IH Hall]; intros Hle; simpl.
  - constructor; [reflexivity | constructor].
  - apply List.Forall_cons_iff in Hle as [Hy Hle].
    destruct (Qle_bool x y) eqn:E.
    + apply Qle_bool_iff in E.
      apply (same_array_all_eq x).
      * simpl. rewrite length_app. simpl. lia.
      * constructor; [reflexivity|]. constructor; [by apply Qle_antisym|].
        rewrite List.Forall_forall in Hall, Hle |- *. intros z Hz.
        apply Qle_antisym; [by apply Hle|].
        apply Qle_trans with y; [exact E | by apply Hall].
      * constructor; [by apply Qle_antisym|].
        apply Forall_app. split; [|by repeat constructor].
        rewrite List.Forall_forall in Hall, Hle |- *. intros z Hz.
        apply Qle_antisym; [by apply Hle|].
        apply Qle_trans with y; [exact E | by apply Hall].
    + constructor; [reflexivity | by apply IH].
Qed.

Lemma insert_sorted_before_max a x s :
  a <= x -> insert_sorted a (s ++ [x]) = insert_sorted a s ++ [x].
Proof.
  intros Hax. induction s as [|y s IH]; simpl.
  - apply Qle_bool_iff in Hax. by rewrite Hax.
  - destruct (Qle_bool a y); [done|]. by rewrite IH.
Qed.

Lemma np_sort_with_max l1 l2 x :
  Forall (fun z => z <= x) (l1 ++ l2) ->
  same_array (np_sort (l1 ++ x :: l2)) (np_sort (l1 ++ l2) ++ [x]).
Proof.
  induction l1 as [|a l1 IH]; intros Hle.
  - apply insert_sorted_max; [apply np_sort_SS | by apply Forall_np_sort].
  - apply List.Forall_cons_iff in Hle as [Ha Hle].
    change (same_array (insert_sorted a (np_sort (l1 ++ x :: l2)))
                       (insert_sorted a (np_sort (l1 ++ l2)) ++ [x])).
    rewrite <- insert_sorted_before_max by done.
    apply insert_sorted_same; [reflexivity | by apply IH].
Qed.

Lemma py_slice_app_l {A} (s t : list A) lo hi :
  (Z.to_nat hi <= length s)%nat -> py_slice (s ++ t) lo hi = py_slice s lo hi.
Proof.
  intros Hhi. unfold py_slice.
  destruct (le_lt_dec (Z.to_nat lo) (length s)) as [Hlo|Hlo].
  - rewrite drop_app_le by done. rewrite take_app_le; [done|].
    rewrite length_drop. lia.
  - replace (Z.to_nat hi - Z.to_nat lo)%nat with 0%nat by lia. done.
Qed.

(** With six beats or more the slice stops before the longest
    interval. *)
Lemma trimmed_intervals_without_max beats l1 l2 x :
  (6 <= length beats)%nat -> (Z.of_nat (length beats) < 2 ^ 50)%Z ->
  same_array (np_diff beats) (l1 ++ x :: l2) ->
  Forall (fun z => z <= x) (l1 ++ l2) ->
  same_array (trimmed_intervals beats)
    (py_slice (np_sort (l1 ++ l2))
       (Z.of_nat (length beats) / 5) (4 * Z.of_nat (length beats) / 5)).
Proof.
  intros H6 Hn Hd Hle. rewrite trimmed_intervals_unfold by done.
  set (lo := (Z.of_nat (length beats) / 5)%Z).
  set (hi := (4 * Z.of_nat (length beats) / 5)%Z).
  eapply same_array_trans; [apply py_slice_same, np_sort_same, Hd|].
  eapply same_array_trans; [apply py_slice_same, np_sort_with_max, Hle|].
  rewrite py_slice_app_l; [apply same_array_refl|].
  rewrite length_np_sort.
  pose proof (Forall2_length _ _ _ Hd) as Hl.
  rewrite length_np_diff, !length_app in Hl. simpl in Hl.
  rewrite length_app. unfold hi.
  pose proof (Z.div_mod (4 * Z.of_nat (length beats)) 5 ltac:(lia)).
  pose proof (Z.mod_pos_bound (4 * Z.of_nat (length beats)) 5 ltac:(lia)).
  lia.
Qed.

Lemma pred_bpm_ignores_max a b l1 l2 x x' :
  length a = length b ->
  (6 <= length a)%nat -> (Z.of_nat (length a) < 2 ^ 50)%Z ->
  same_array (np_diff a) (l1 ++ x :: l2) ->
  same_array (np_diff b) (l1 ++ x' :: l2) ->
  Forall (fun z => z <= x) (l1 ++ l2) -> Forall (fun z => z <= x') (l1 ++ l2) ->
  same_float (pred_bpm a) (pred_bpm b).
Proof.
  intros Hl H6 Hn Ha Hb Hx Hx'.
  pose proof (trimmed_intervals_without_max a l1 l2 x H6 Hn Ha Hx) as Ta.
  pose proof (trimmed_intervals_without_max b l1 l2 x'
                ltac:(by rewrite <- Hl) ltac:(by rewrite <- Hl) Hb Hx') as Tb.
  rewrite <- Hl in Tb.
  unfold pred_bpm, pred_beat_len. apply Np_div_same; [reflexivity|].
  eapply same_float_trans; [apply np_mean_same, Ta|].
  apply np_mean_same.
  clear -Tb. induction Tb; constructor; [by symmetry | assumption].
Qed.

End OutlierTheory.

(** ** Properties of the tempo estimate *)

Section TempoProperties.



(** X5: the tempo estimate does not depend on where the beats start:
    moving every beat by the same amount [c] leaves it unchanged. *)
Theorem tempo_shift_invariant c beats :
  same_float (pred_bpm ((fun t => t + c) <$> beats)) (pred_bpm beats).
Proof.
  apply pred_bpm_same_diffs; [by rewrite length_fmap|].
  eapply same_array_trans.
  - apply (np_diff_fmap (fun t => t + c) (fun d => d)). intros x y. ring.
  - apply fmap_id_same. reflexivity.
Qed.



(** X18: with six beats or more the longest interval between beats
    is trimmed away: making the longest gap longer still (every beat
    after it comes [delta >= 0] later) leaves the tempo estimate
    unchanged. *)
Theorem tempo_ignores_the_longest_gap pre post delta :
  pre <> [] -> post <> [] ->
  (6 <= length (pre ++ post))%nat -> (Z.of_nat (length (pre ++ post)) < 2 ^ 50)%Z ->
  Forall (fun d => d <= List.hd 0 post - List.last pre 0) (np_diff pre ++ np_diff post) ->
  0 <= delta ->
  same_float (pred_bpm (pre ++ ((fun t => t + delta) <$> post)))
             (pred_bpm (pre ++ post)).
Proof.
  intros Hpre Hpost H6 Hn Hmax Hdelta.
  set (gap := List.hd 0 post - List.last pre 0) in *.
  assert (Hl : length (pre ++ ((fun t => t + delta) <$> post)) = length (pre ++ post)).
  { by rewrite !length_app, length_fmap. }
  apply (pred_bpm_ignores_max _ _ (np_diff pre) (np_diff post) (gap + delta) gap).
  - exact Hl.
  - by rewrite Hl.
  - by rewrite Hl.
  - rewrite np_diff_app; [|done|by destruct post].
    apply Forall2_app; [apply same_array_refl|]. constructor.
    + destruct post as [|p post]; [done|]. unfold gap. simpl. ring.
    + eapply same_array_trans.
      * apply (np_diff_fmap (fun t => t + delta) (fun d => d)). intros x y. ring.
      * apply fmap_id_same. reflexivity.
  - rewrite np_diff_app by done. apply same_array_refl.
  - eapply List.Forall_impl; [|exact Hmax]. intros d Hd. simpl in Hd. lra.
  - exact Hmax.
Qed.

Lemma tempo_ignores_the_longest_gap_witness :
  same_float (pred_bpm ([0; 1; 2] ++ ((fun t => t + 3) <$> [4; 5; 6])))
             (pred_bpm ([0; 1; 2] ++ [4; 5; 6])).
Proof.
  apply (tempo_ignores_the_longest_gap [0; 1; 2] [4; 5; 6] 3).
  - discriminate.
  - discriminate.
  - simpl. lia.
  - simpl. lia.
  - vm_compute. repeat constructor; discriminate.
  - discriminate.
Defined.

End TempoProperties.

(** ** Properties of [process] *)

Section ProcessProperties.

Context {audio : Type} `{!Madmom audio}.

Lemma process_negative_workers self env (audio_data : audio) :
  (parallel_workers self < 0)%Z -> process self env audio_data = Raise ValueError.
Proof.
  intros Hw. unfold process, first_pass_parallel.
  destruct (Z.eqb_spec (parallel_workers self) 0) as [E|_]; [lia|].
  destruct (Z.ltb_spec (parallel_workers self) 0) as [_|Hge]; [done | lia].
Qed.

Lemma process_returns self env (audio_data : audio) :
  iterates_each_once env -> (0 <= parallel_workers self)%Z ->
  let b1 := _get_dbn_down_beat self audio_data (Num 50) (Num 230) in
  let b2 := _get_dbn_beat self audio_data in
  let b3 := _get_beat self audio_data in
  process self env audio_data =
  Ok (_get_dbn_down_beat self audio_data
        (Np.div (consensus b1 b2 b3) (Num lit_1_38))
        (Np.mul (consensus b1 b2 b3) (Num lit_1_38))).
Proof.
  intros Hord Hw. cbv zeta.
  destruct (Z.eq_dec (parallel_workers self) 0%Z) as [E|Hne].
  - unfold process. rewrite E. reflexivity.
  - rewrite process_parallel by (done || lia). apply process_sequential.
Qed.

(** X1: [process] never ends with TimeoutError, however long the jobs
    run and in whatever order the finished futures are iterated: the
    pool is shut down, which waits for every job, before the loop with
    the timeout starts. *)
Theorem process_cannot_time_out self env (audio_data : audio) :
  process self env audio_data <> Raise TimeoutError.
Proof.
  unfold process.
  destruct (parallel_workers self =? 0)%Z; [done|].
  unfold first_pass_parallel.
  destruct (parallel_workers self <? 0)%Z; [done|].
  cbv zeta. rewrite as_completed_after_shutdown. simpl.
  match goal with |- context [collect ?q ?d] =>
    pose proof (collect_never_times_out q d) as Hc;
    destruct (collect q d) as [results|e] end; simpl; [|congruence].
  unfold getitem.
  repeat match goal with |- context [?m !! ?k] => destruct (m !! k); simpl end; done.
Qed.


(** X3: when one of the three estimators finds fewer than two beats,
    its tempo is nan, so is the consensus, and the second pass of the
    downbeat tracker is run with nan for both tempo bounds: [process]
    raises nothing itself and returns what the tracker makes of
    them. *)
Theorem process_with_degenerate_estimate self env (audio_data : audio) :
  iterates_each_once env -> (0 <= parallel_workers self)%Z ->
  (length (_get_dbn_down_beat self audio_data (Num 50) (Num 230)) < 2 \/
   length (_get_dbn_beat self audio_data) < 2 \/
   length (_get_beat self audio_data) < 2)%nat ->
  process self env audio_data = Ok (_get_dbn_down_beat self audio_data NaN NaN).
Proof.
  intros Hord Hw Hd. rewrite process_returns by done. cbv zeta.
  by rewrite consensus_nan.
Qed.


End ProcessProperties.

Section ProcessPropertyExamples.


Lemma process_with_degenerate_estimate_witness :
  @process unit one_click default_tracker slow_run tt
  = Ok (@_get_dbn_down_beat unit one_click default_tracker tt NaN NaN).
Proof.
  apply (@process_with_degenerate_estimate unit one_click default_tracker slow_run tt).
  - exact slow_run_iterates_each_once.
  - simpl. lia.
  - right. left. simpl. lia.
Defined.


End ProcessPropertyExamples.

(** ** More on the interpolation of the beats *)

Section InterpolantTheory.

Lemma searchsorted_comp x v w : v == w -> searchsorted x v = searchsorted x w.
Proof.
  intros E. induction x as [|x0 x IH]; simpl; [done|].
  rewrite (Qltb_comp x0 x0 v w (Qeq_refl x0) E), IH. done.
Qed.

Lemma interp1d_call_Qeq x y v w : v == w -> interp1d_call x y v == interp1d_call x y w.
Proof.
  intros E. unfold interp1d_call. cbv zeta.
  rewrite (searchsorted_comp x v w E). by rewrite E.
Qed.

(** [searchsorted] is the one index that splits the array at [v]. *)
Lemma searchsorted_unique x v k :
  (k <= length x)%nat ->
  (forall i, (i < k)%nat -> nth i x 0 < v) ->
  ((k < length x)%nat -> v <= nth k x 0) ->
  searchsorted x v = k.
Proof.
  revert k. induction x as [|x0 x IH]; intros k Hk Hlo Hhi; simpl in Hk.
  - simpl. lia.
  - simpl. destruct k as [|k].
    + assert (E : Qltb x0 v = false) by (apply Qltb_ge, Hhi; simpl; lia).
      by rewrite E.
    + assert (E : Qltb x0 v = true) by (apply Qltb_lt, (Hlo 0%nat); lia).
      rewrite E. f_equal. apply IH; [lia| |].
      * intros i Hi. apply (Hlo (S i)). lia.
      * intros Hk'. apply Hhi. simpl. lia.
Qed.

Lemma searchsorted_beat_abs_idx b k v :
  (k <= length b)%nat ->
  ((1 <= k)%nat -> inject_Z (Z.of_nat k) < v) ->
  ((k < length b)%nat -> v <= inject_Z (Z.of_nat k + 1)) ->
  searchsorted (beat_abs_idx b) v = k.
Proof.
  intros Hk Hlo Hhi. apply searchsorted_unique.
  - by rewrite length_beat_abs_idx.
  - intros i Hi. rewrite nth_beat_abs_idx by lia.
    apply Qle_lt_trans with (inject_Z (Z.of_nat k)); [|apply Hlo; lia].
    rewrite <- Zle_Qle. lia.
  - rewrite length_beat_abs_idx. intros Hk'. rewrite nth_beat_abs_idx by done.
    by apply Hhi.
Qed.

(** On the segment that ends at beat number [h + 1] the interpolant is
    the line through beats [h] and [h + 1] (counted from 1). *)
Lemma interp1d_call_on_segment b h v :
  (1 <= h)%nat -> (h < length b)%nat ->
  clip (searchsorted (beat_abs_idx b) v) 1 (length b - 1) = h ->
  interp1d_call (beat_abs_idx b) b v ==
  nth (h - 1) b 0 + (v - inject_Z (Z.of_nat h)) * (nth h b 0 - nth (h - 1) b 0).
Proof.
  intros H1 Hh Hc. unfold interp1d_call. cbv zeta.
  rewrite length_beat_abs_idx, Hc.
  rewrite !nth_beat_abs_idx by lia.
  replace (Z.of_nat (h - 1) + 1)%Z with (Z.of_nat h) by lia.
  rewrite inject_Z_plus. change (inject_Z 1) with 1.
  field. lra.
Qed.

End InterpolantTheory.

Section StrictSegment.

Variables xl xh yl yh : Q.
Hypothesis Hx : xl < xh.
Hypothesis Hy : yl < yh.

Lemma slope_pos : 0 < (yh - yl) / (xh - xl).
Proof. apply Qlt_shift_div_l; lra. Qed.

Lemma segment_strict v w : v < w ->
  (yh - yl) / (xh - xl) * (v - xl) + yl < (yh - yl) / (xh - xl) * (w - xl) + yl.
Proof.
  intros Hvw. pose proof slope_pos as Hs.
  set (s := (yh - yl) / (xh - xl)) in *. nra.
Qed.

Lemma segment_gt_lo w : xl < w -> yl < (yh - yl) / (xh - xl) * (w - xl) + yl.
Proof.
  intros Hw. pose proof slope_pos as Hs.
  set (s := (yh - yl) / (xh - xl)) in *. nra.
Qed.

End StrictSegment.

Section StrictInterp.

Variables x y : list Q.
Hypothesis Hx : strictly_increasing x.
Hypothesis Hy : strictly_increasing y.
Hypothesis Hlen : length x = length y.
Hypothesis H2 : (2 <= length x)%nat.

Lemma values_lt i j : (i < j)%nat -> (j < length x)%nat -> nth i y 0 < nth j y 0.
Proof.
  intros Hij Hj. apply SS_nth; [apply strictly_increasing_SS, Hy | lia | lia].
Qed.

(** Over strictly increasing values the interpolant is strictly
    increasing. *)
Lemma interp1d_call_strict v w : v < w -> interp1d_call x y v < interp1d_call x y w.
Proof.
  intros Hvw.
  pose proof (strictly_increasing_non_decreasing y Hy) as Hy'.
  pose proof (searchsorted_mono x v w (Qlt_le_weak _ _ Hvw)) as Hs.
  pose proof (searchsorted_le x w) as Hsw.
  unfold interp1d_call. cbv zeta.
  set (sv := searchsorted x v) in *. set (sw := searchsorted x w) in *.
  set (hv := clip sv 1 (length x - 1)). set (hw := clip sw 1 (length x - 1)).
  assert (Hhv : (1 <= hv <= length x - 1)%nat) by (unfold hv, clip; lia).
  assert (Hhw : (1 <= hw <= length x - 1)%nat) by (unfold hw, clip; lia).
  assert (Hh : (hv <= hw)%nat) by (unfold hv, hw, clip; lia).
  pose proof (knots_lt x Hx (hv - 1) hv ltac:(lia) ltac:(lia)) as Hxv.
  pose proof (knots_lt x Hx (hw - 1) hw ltac:(lia) ltac:(lia)) as Hxw.
  pose proof (values_lt (hv - 1) hv ltac:(lia) ltac:(lia)) as Hyv.
  pose proof (values_lt (hw - 1) hw ltac:(lia) ltac:(lia)) as Hyw.
  destruct (decide (hv = hw)) as [E|NE].
  - rewrite <- E. by apply segment_strict.
  - assert (Hv : v <= nth hv x 0).
    { destruct (decide (sv = hv)) as [Es|Ns].
      - rewrite <- Es. apply searchsorted_above. lia.
      - assert (sv = 0%nat /\ hv = 1%nat) as [Es0 Eh1] by (unfold hv, clip in *; lia).
        pose proof (searchsorted_above x v ltac:(fold sv; lia)) as Ha.
        fold sv in Ha. rewrite Es0 in Ha. rewrite Eh1.
        pose proof (knots_lt x Hx 0 1 ltac:(lia) ltac:(lia)). lra. }
    assert (Hw : nth (hw - 1) x 0 < w).
    { apply searchsorted_below. fold sw. unfold hw, hv, clip in *. lia. }
    pose proof (segment_le_hi _ _ _ _ Hxv v (Qlt_le_weak _ _ Hyv) Hv) as H1.
    pose proof (segment_gt_lo _ _ _ _ Hxw Hyw w Hw) as H3.
    pose proof (values_le x y Hy' Hlen H2 hv (hw - 1) ltac:(lia) ltac:(lia)) as H4.
    lra.
Qed.

End StrictInterp.

(** ** More on the sampling grid *)

Section StrictGrid.

(** Two multiples of a positive step are still apart after rounding. *)
Lemma b64_scaled_lt t a b :
  0 < t -> (1 <= a)%Z -> (a < b)%Z -> (a < 2 ^ 51)%Z ->
  b64 (inject_Z a * t) < b64 (inject_Z b * t).
Proof.
  intros Ht Ha Hab Hbound.
  assert (HA : 1 <= inject_Z a).
  { change 1 with (inject_Z 1). rewrite <- Zle_Qle. lia. }
  assert (HA' : inject_Z a <= 2251799813685248).
  { change 2251799813685248 with (inject_Z (2 ^ 51)). rewrite <- Zle_Qle. lia. }
  assert (HB : inject_Z a + 1 <= inject_Z b).
  { change 1 with (inject_Z 1). rewrite <- inject_Z_plus, <- Zle_Qle. lia. }
  assert (Hxa : 0 < inject_Z a * t) by nra.
  assert (Hxb : 0 < inject_Z b * t) by nra.
  destruct (b64_rel_err _ Hxa) as [_ Hup].
  destruct (b64_rel_err _ Hxb) as [Hdown _].
  change (pow2 (-53)) with (1 # 9007199254740992) in Hup, Hdown.
  set (A := inject_Z a) in *. set (B := inject_Z b) in *.
  assert (Hgap : A * (1 + (1 # 9007199254740992)) < B * (1 - (1 # 9007199254740992)))
    by lra.
  assert (Hgap' : A * (1 + (1 # 9007199254740992)) * t
                  < B * (1 - (1 # 9007199254740992)) * t).
  { apply Qmult_lt_compat_r; assumption. }
  apply Qle_lt_trans with (A * t * (1 + (1 # 9007199254740992))); [exact Hup|].
  apply Qlt_le_trans with (B * t * (1 - (1 # 9007199254740992))); [|exact Hdown].
  lra.
Qed.

(** The grid has no repeated point. *)
Lemma arange_item_strict s i j :
  0 < s -> (0 <= i)%Z -> (i < j)%Z -> (j < 2 ^ 51)%Z ->
  arange_item 0 s i < arange_item 0 s j.
Proof.
  intros Hs Hi Hij Hj.
  pose proof (b64_gt_0 s Hs) as Ht.
  assert (Hitem : forall n, (1 <= n < 2 ^ 53)%Z ->
            arange_item 0 s n == b64 (inject_Z n * b64 s)).
  { intros n Hn. rewrite arange_item_norm.
    destruct (Z.eqb_spec n 0) as [->|_]; [lia|].
    destruct (Z.eqb_spec n 1) as [->|_].
    - rewrite <- (b64_idem s) at 1. apply b64_comp.
      change (inject_Z 1) with 1. ring.
    - apply b64_comp. rewrite py_float_exact by lia. reflexivity. }
  destruct (Z.eq_dec i 0%Z) as [->|Hi0].
  - rewrite (Hitem j) by lia.
    assert (E0 : arange_item 0 s 0 == 0) by (rewrite arange_item_norm; reflexivity).
    rewrite E0. apply b64_gt_0.
    assert (0 < inject_Z j) by (apply inject_Z_pos; lia). nra.
  - rewrite (Hitem i), (Hitem j) by lia.
    apply b64_scaled_lt; [exact Ht | lia | lia | lia].
Qed.

Lemma SS_lt_fmap_seq (g : nat -> Q) s n :
  (forall i j, (s <= i)%nat -> (i < j)%nat -> (j < s + n)%nat -> g i < g j) ->
  StronglySorted Qlt (g <$> seq s n).
Proof.
  revert s. induction n as [|n IH]; intros s Hg; [constructor|].
  simpl. constructor.
  - apply IH. intros i j Hi Hij Hj. apply Hg; lia.
  - rewrite Forall_fmap, List.Forall_forall. intros j Hj.
    apply List.in_seq in Hj. simpl. apply Hg; lia.
Qed.

Lemma SS_lt_fmap (f : Q -> Q) a :
  (forall u v, u < v -> f u < f v) ->
  StronglySorted Qlt a -> StronglySorted Qlt (f <$> a).
Proof.
  intros Hf. induction 1 as [|x a Hss IH Hall]; [constructor|].
  rewrite fmap_cons. constructor; [exact IH|].
  rewrite Forall_fmap. eapply Forall_impl; [exact Hall|].
  intros z Hz. simpl. by apply Hf.
Qed.

Lemma SS_strictly_increasing a : StronglySorted Qlt a -> strictly_increasing a.
Proof.
  induction 1 as [|x a Hss IH Hall]; [done|].
  destruct a as [|z a]; [done|]. split; [|exact IH].
  by apply List.Forall_inv in Hall.
Qed.

(** The grid of [np.arange] for [d >= 1] divisions is strictly
    increasing as long as it has fewer than [2 ^ 51] points. *)
Lemma mini_beat_abs_idx_strict (N : nat) d :
  (1 <= d)%Z -> ((Z.of_nat N + 1) * d + 1 < 2 ^ 51)%Z ->
  StronglySorted Qlt (mini_beat_abs_idx N d).
Proof.
  intros Hd Hb.
  assert (Hd53 : (1 <= d < 2 ^ 53)%Z) by nia.
  destruct (step_for_bounds d Hd53) as (Hs & _ & _).
  pose proof (arange_len_bounds N d Hd ltac:(lia)) as [_ Hlen].
  unfold mini_beat_abs_idx, np_arange. rewrite reciprocal_nonzero by lia.
  apply SS_lt_fmap_seq. intros i j Hi Hij Hj.
  apply arange_item_strict; [exact Hs | lia | lia | lia].
Qed.

(** A negative number of divisions gives an empty grid. *)
Lemma step_for_negative d : (d <= -1)%Z -> step_for d < 0.
Proof.
  intros Hd. unfold step_for.
  assert (Hf : py_float d <= -1).
  { pose proof (py_float_mono d (-1) Hd) as H.
    rewrite (py_float_exact (-1)) in H by (simpl; lia). exact H. }
  assert (Hq : py_float 1 / py_float d < 0).
  { rewrite py_float_1.
    assert (E : 1 / py_float d == - (1 / - py_float d)) by (field; lra).
    rewrite E.
    assert (0 < 1 / - py_float d) by (apply Qdiv_pos; lra). lra. }
  rewrite (b64_neg _ Hq).
  assert (0 < round_pos (- (py_float 1 / py_float d))) by (apply round_pos_pos; lra).
  lra.
Qed.

Lemma mini_beat_abs_idx_negative (N : nat) d :
  (d <= -1)%Z -> mini_beat_abs_idx N d = [].
Proof.
  intros Hd. pose proof (step_for_negative d Hd) as Hs.
  unfold mini_beat_abs_idx, np_arange. rewrite reciprocal_nonzero by lia.
  assert (E : Z.to_nat (arange_len 0 (Z.of_nat N + 1) (Num (step_for d))) = 0%nat).
  { unfold arange_len. rewrite Z.sub_0_r.
    set (q := py_float (Z.of_nat N + 1) / step_for d).
    assert (Hq : q <= 0).
    { unfold q. pose proof (py_float_nonneg (Z.of_nat N + 1) ltac:(lia)) as Hn.
      assert (E : py_float (Z.of_nat N + 1) / step_for d
                  == - (py_float (Z.of_nat N + 1) / - step_for d)) by (field; lra).
      rewrite E.
      assert (0 <= py_float (Z.of_nat N + 1) / - step_for d).
      { apply Qle_shift_div_l; lra. }
      lra. }
    pose proof (b64_mono _ _ Hq) as Hb. rewrite (b64_zero 0) in Hb by reflexivity.
    pose proof (Qceiling_resp_le _ _ Hb) as Hc.
    change (Qceiling 0) with 0%Z in Hc. lia. }
  by rewrite E.
Qed.

End StrictGrid.

(** ** The interpolant, segment by segment *)

Section PiecewiseTheory.

Variable b : list Q.
Hypothesis H2 : (2 <= length b)%nat.

Lemma interp_before_first v :
  v <= 1 ->
  interp1d_call (beat_abs_idx b) b v ==
  nth 0 b 0 + (v - 1) * (nth 1 b 0 - nth 0 b 0).
Proof.
  intros Hv.
  assert (Es : searchsorted (beat_abs_idx b) v = 0%nat).
  { apply searchsorted_beat_abs_idx; [lia | lia | by intros _]. }
  rewrite (interp1d_call_on_segment b 1 v); [reflexivity | lia | lia |].
  rewrite Es. unfold clip. lia.
Qed.

Lemma interp_between j v :
  (S j < length b)%nat ->
  inject_Z (Z.of_nat j + 1) <= v -> v <= inject_Z (Z.of_nat j + 2) ->
  interp1d_call (beat_abs_idx b) b v ==
  nth j b 0 + (v - inject_Z (Z.of_nat j + 1)) * (nth (S j) b 0 - nth j b 0).
Proof.
  intros Hj Hlo Hhi.
  destruct (Qlt_le_dec (inject_Z (Z.of_nat j + 1)) v) as [Hgt|Hle].
  - assert (Es : searchsorted (beat_abs_idx b) v = S j).
    { apply searchsorted_beat_abs_idx; [lia| |].
      - intros _. by replace (Z.of_nat (S j)) with (Z.of_nat j + 1)%Z by lia.
      - intros _. by replace (Z.of_nat (S j) + 1)%Z with (Z.of_nat j + 2)%Z by lia. }
    rewrite (interp1d_call_on_segment b (S j) v); [|lia|lia|].
    + replace (S j - 1)%nat with j by lia.
      by replace (Z.of_nat (S j)) with (Z.of_nat j + 1)%Z by lia.
    + rewrite Es. unfold clip. lia.
  - assert (Ev : v == inject_Z (Z.of_nat j + 1)) by (by apply Qle_antisym).
    assert (Es : searchsorted (beat_abs_idx b) v = j).
    { apply searchsorted_beat_abs_idx; [lia| |].
      - intros _. rewrite Ev, <- Zlt_Qlt. lia.
      - intros _. exact Hle. }
    destruct j as [|j].
    + rewrite (interp1d_call_on_segment b 1 v); [reflexivity | lia | lia |].
      rewrite Es. unfold clip. lia.
    + rewrite (interp1d_call_on_segment b (S j) v); [|lia|lia|].
      * replace (S j - 1)%nat with j by lia.
        rewrite Ev.
        rewrite inject_Z_plus. change (inject_Z 1) with 1. ring.
      * rewrite Es. unfold clip. lia.
Qed.

Lemma interp_after_last v :
  inject_Z (Z.of_nat (length b)) <= v ->
  interp1d_call (beat_abs_idx b) b v ==
  nth (length b - 2) b 0
  + (v - inject_Z (Z.of_nat (length b) - 1))
    * (nth (length b - 1) b 0 - nth (length b - 2) b 0).
Proof.
  intros Hv.
  assert (Hc : clip (searchsorted (beat_abs_idx b) v) 1 (length b - 1)
               = (length b - 1)%nat).
  { destruct (Qlt_le_dec (inject_Z (Z.of_nat (length b))) v) as [Hgt|Hle].
    - rewrite (searchsorted_beat_abs_idx b (length b) v); [unfold clip; lia|lia| |lia].
      by intros _.
    - rewrite (searchsorted_beat_abs_idx b (length b - 1) v); [unfold clip; lia|lia| |].
      + intros _. apply Qlt_le_trans with (inject_Z (Z.of_nat (length b))); [|exact Hv].
        rewrite <- Zlt_Qlt. lia.
      + intros _. by replace (Z.of_nat (length b - 1) + 1)%Z
                        with (Z.of_nat (length b)) by lia. }
  rewrite (interp1d_call_on_segment b (length b - 1) v); [|lia|lia|exact Hc].
  replace (length b - 1 - 1)%nat with (length b - 2)%nat by lia.
  by replace (Z.of_nat (length b - 1)) with (Z.of_nat (length b) - 1)%Z by lia.
Qed.

End PiecewiseTheory.

Section OutputTheory.

Lemma elem_of_output (f : Q -> Q) (g : nat -> Q) (L : Q) n i :
  (i < n)%nat -> 0 <= f (g i) -> f (g i) <= L ->
  In (f (g i))
     (List.filter (fun t => Qle_bool t L)
        (List.filter (fun t => Qle_bool 0 t) (f <$> (g <$> seq 0 n)))).
Proof.
  intros Hi H0 HL.
  apply List.filter_In. split; [|by apply Qle_bool_iff].
  apply List.filter_In. split; [|by apply Qle_bool_iff].
  apply list_elem_of_In, list_elem_of_fmap_2, list_elem_of_fmap_2.
  apply elem_of_seq. lia.
Qed.

Lemma filter_filter_weaker {A} (p q : A -> bool) l :
  (forall a, p a = true -> q a = true) ->
  List.filter p (List.filter q l) = List.filter p l.
Proof.
  intros Hpq. induction l as [|a l IH]; simpl; [done|].
  destruct (q a) eqn:Eq; simpl.
  - destruct (p a); by rewrite IH.
  - destruct (p a) eqn:Ep; [|exact IH].
    apply Hpq in Ep. congruence.
Qed.

Lemma extract_sorted_within b L n :
  strictly_increasing b -> (2 <= length b)%nat -> (1 <= divisions n)%Z ->
  exists out,
    extract_mini_beat_from_beat_arr b L n = Ok out /\
    non_decreasing out /\ Forall (fun t => 0 <= t /\ t <= L) out.
Proof.
  intros Hs H2 Hd. eexists. split; [by apply extract_unfold|]. split.
  - apply SS_non_decreasing, SS_filter, SS_filter, SS_fmap_mono.
    + intros u v Huv. apply interp1d_call_mono; try done.
      * apply beat_abs_idx_increasing.
      * by apply strictly_increasing_non_decreasing.
      * apply length_beat_abs_idx.
      * by rewrite length_beat_abs_idx.
    + by apply mini_beat_abs_idx_sorted.
  - apply Forall_and. split.
    + apply Forall_filter_keep.
      eapply Forall_impl; [apply Forall_filter_true|].
      intros t Ht. simpl in Ht. by apply Qle_bool_iff.
    + eapply Forall_impl; [apply Forall_filter_true|].
      intros t Ht. simpl in Ht. by apply Qle_bool_iff.
Qed.

(** With [2 ^ k] divisions per beat the sample number [i] is taken at
    beat number [i / 2 ^ k], and is returned when it lies within the
    audio. *)
Lemma pow2_sample_returned b L n k i t :
  (2 <= length b)%nat -> (0 <= k)%Z -> divisions n = (2 ^ k)%Z ->
  ((Z.of_nat (length b) + 1) * 2 ^ k < 2 ^ 53)%Z ->
  (0 <= i < (Z.of_nat (length b) + 1) * 2 ^ k)%Z ->
  interp1d_call (beat_abs_idx b) b (inject_Z i / inject_Z (2 ^ k)) == t ->
  0 <= t -> t <= L ->
  Exists (fun u => u == t)
    (List.filter (fun t => Qle_bool t L)
       (List.filter (fun t => Qle_bool 0 t)
          (interp1d_call (beat_abs_idx b) b
             <$> mini_beat_abs_idx (length b) (divisions n)))).
Proof.
  intros H2 Hk Hd Hb Hi Ht Ht0 HtL.
  rewrite Hd, mini_beat_abs_idx_pow2 by done.
  set (f := interp1d_call (beat_abs_idx b) b) in *.
  set (g := fun i => arange_item 0 (step_for (2 ^ k)) (Z.of_nat i)).
  set (m := Z.to_nat ((Z.of_nat (length b) + 1) * 2 ^ k)).
  assert (Hi' : (Z.to_nat i < m)%nat) by (unfold m; lia).
  assert (Eg : g (Z.to_nat i) == inject_Z i / inject_Z (2 ^ k)).
  { unfold g. rewrite pow2_grid_item by (done || lia).
    by rewrite Z2Nat.id by lia. }
  assert (Ef : f (g (Z.to_nat i)) == t).
  { unfold f. by rewrite (interp1d_call_Qeq _ _ _ _ Eg). }
  apply List.Exists_exists. exists (f (g (Z.to_nat i))). split; [|exact Ef].
  apply (elem_of_output f g L m (Z.to_nat i) Hi'); rewrite Ef; assumption.
Qed.

Lemma divisions_negative n : (n <= -3)%Z -> (divisions n <= -1)%Z.
Proof.
  intros Hn. unfold divisions, np_round.
  assert (E : rint (b64 (inject_Z (-3) / 4)) = (-1)%Z) by (vm_compute; reflexivity).
  rewrite <- E. apply rint_mono, b64_mono.
  unfold Qdiv. apply Qmult_le_compat_r; [|discriminate].
  rewrite <- Zle_Qle. exact Hn.
Qed.

End OutputTheory.

(** ** Properties of the mini-beats *)

Section MiniBeatProperties.









(** X11: the number of mini-beats is at most
    [(len(beat_arr) + 1) * divisions + 1]. *)
Theorem mini_beat_count_bound beats audio_len_sec mini_beat_div_n :
  (2 <= length beats)%nat -> (1 <= divisions mini_beat_div_n)%Z ->
  ((Z.of_nat (length beats) + 1) * divisions mini_beat_div_n < 2 ^ 52)%Z ->
  exists out,
    extract_mini_beat_from_beat_arr beats audio_len_sec mini_beat_div_n = Ok out /\
    (Z.of_nat (length out)
     <= (Z.of_nat (length beats) + 1) * divisions mini_beat_div_n + 1)%Z.
Proof.
  intros H2 Hd Hb. eexists. split; [by apply extract_unfold|].
  pose proof (arange_len_bounds (length beats) _ Hd Hb) as [_ Hlen].
  etransitivity; [apply inj_le, List.filter_length_le|].
  etransitivity; [apply inj_le, List.filter_length_le|].
  rewrite length_fmap. unfold mini_beat_abs_idx, np_arange.
  rewrite reciprocal_nonzero by lia. rewrite length_fmap, length_seq. lia.
Qed.

Lemma mini_beat_count_bound_witness :
  exists out,
    extract_mini_beat_from_beat_arr [1; 2; 3; 4] 4 12 = Ok out /\
    (Z.of_nat (length out) <= (Z.of_nat 4 + 1) * divisions 12 + 1)%Z.
Proof.
  apply (mini_beat_count_bound [1; 2; 3; 4] 4 12).
  - simpl. lia.
  - vm_compute. discriminate.
  - vm_compute. reflexivity.
Defined.



(** X15: the audio length only cuts the result: the mini-beats for a
    shorter audio are those for a longer one that do not exceed the
    shorter length, and an error for one length is an error for the
    other. *)
Theorem shorter_audio_keeps_the_early_mini_beats beats len1 len2 mini_beat_div_n :
  len1 <= len2 ->
  extract_mini_beat_from_beat_arr beats len1 mini_beat_div_n
  = (out2 ← extract_mini_beat_from_beat_arr beats len2 mini_beat_div_n;
     Ok (List.filter (fun x => Qle_bool x len1) out2)).
Proof.
  intros Hl. unfold extract_mini_beat_from_beat_arr.
  destruct (interp1d (beat_abs_idx beats) beats) as [f|e]; simpl; [|done].
  f_equal. symmetry. apply filter_filter_weaker.
  intros t Ht. apply Qle_bool_iff. apply Qle_bool_iff in Ht. lra.
Qed.

Lemma shorter_audio_keeps_the_early_mini_beats_witness :
  extract_mini_beat_from_beat_arr [1; 2; 3] 2 4
  = (out2 ← extract_mini_beat_from_beat_arr [1; 2; 3] 4 4;
     Ok (List.filter (fun x => Qle_bool x 2) out2)).
Proof.
  apply (shorter_audio_keeps_the_early_mini_beats [1; 2; 3] 2 4 4).
  discriminate.
Defined.


End MiniBeatProperties.

(** ** Properties of the functions that start from an audio file *)

Section FromAudioPathProperties.

Context {audio : Type} `{!Madmom audio}.
Variable path : Type.
Variable load_audio : path -> Z -> audio * Z.
Variable len : audio -> nat.

Lemma extract_beat_with_madmom_unfold env (p : path) sr pw nt :
  extract_beat_with_madmom load_audio len env p sr pw nt =
  match process {| num_threads := nt; parallel_workers := pw |} env (load_audio p sr).1 with
  | Raise e => Raises e
  | Ok beat_arr =>
      if (sr =? 0)%Z then RaisesZeroDivisionError
      else Returns (beat_arr,
                    b64 (inject_Z (Z.of_nat (len (load_audio p sr).1)) / inject_Z sr))
  end.
Proof. unfold extract_beat_with_madmom. by destruct (load_audio p sr). Qed.




End FromAudioPathProperties.

Section FromAudioPathExamples.




End FromAudioPathExamples.
